(** * Document translator: chunking and the chunk-level translation pipeline

    A shallow embedding of [DocumentTranslator.smart_chunk_text],
    [DocumentTranslator.get_translator_instance] and
    [DocumentTranslator.translate_text] of [src/main.py], with the Python
    built-ins they rely on, and the properties of the specification stated
    over that embedding. *)

From Stdlib Require Import String Ascii.
From Stdlib Require Import List ZArith NArith Lia Bool Permutation.
Import ListNotations.

Local Open Scope Z_scope.

(** ** Exceptions and fallible computations *)

(** The exceptions the modelled code can meet: [ValueError] is what
    [range] raises on a zero step; [BackendError] stands for any
    [Exception] raised by the translation library. *)
Inductive exn : Type :=
| ValueError
| BackendError (code : N).

Inductive result (A : Type) : Type :=
| Ok (a : A)
| Raise (e : exn).

Arguments Ok {A} a.
Arguments Raise {A} e.

Definition bind {A B : Type} (m : result A) (k : A -> result B) : result B :=
  match m with
  | Ok a => k a
  | Raise e => Raise e
  end.

Notation "x <- m ;; k" := (bind m (fun x => k))
  (at level 61, m at next level, right associativity).

(** ** Python strings and the built-ins used by the source *)

Module Py.

(** A [str] is a sequence of Unicode code points; [len] counts code
    points, as Python does. *)
Definition char : Type := N.
Definition str : Type := list char.

Definition len {A : Type} (s : list A) : Z := Z.of_nat (length s).

(** ASCII literals, for readable examples. *)
Definition lit (s : string) : str := map N_of_ascii (list_ascii_of_string s).

Definition LF : char := 10%N.

(** Truthiness of a list: [if xs:]. *)
Definition truthy {A : Type} (xs : list A) : bool :=
  match xs with
  | [] => false
  | _ :: _ => true
  end.

(** [sep.join(xs)]. *)
Fixpoint join (sep : str) (xs : list str) : str :=
  match xs with
  | [] => []
  | [x] => x
  | x :: rest => x ++ sep ++ join sep rest
  end.

(** Puts a character in front of the first piece of a split. *)
Definition cons_head (c : char) (pieces : list str) : list str :=
  match pieces with
  | [] => [[c]]
  | p :: ps => (c :: p) :: ps
  end.

(** [text.split("\n\n")]: leftmost, non-overlapping occurrences of the
    two-character separator; the result is never empty. *)
Fixpoint split_nn (s : str) : list str :=
  match s with
  | [] => [[]]
  | c :: rest =>
      match rest with
      | d :: rest' =>
          if ((c =? LF)%N && (d =? LF)%N)%bool
          then [] :: split_nn rest'
          else cons_head c (split_nn rest)
      | [] => [[c]]
      end
  end.

(** [str.isspace] on one code point; the same set is what [\s] matches
    in a [str] pattern and what [str.strip()] removes. *)
Definition isspace (c : char) : bool :=
  (existsb (N.eqb c)
     [9; 10; 11; 12; 13; 28; 29; 30; 31; 32; 133; 160; 5760;
      8232; 8233; 8239; 8287; 12288]%N
   || ((8192 <=? c)%N && (c <=? 8202)%N))%bool.

(** The character class [[.!?。！？]]. *)
Definition is_terminator (c : char) : bool :=
  existsb (N.eqb c) [46; 33; 63; 12290; 65281; 65311]%N.

(** [re.split(r"(?<=[.!?。！？])\s*", s)].  The pattern matches right
    after a terminator and swallows the run of whitespace that follows;
    [skip] is true while that run is being consumed.  The piece after the
    last match is always returned, also when it is empty. *)
Fixpoint re_split_aux (skip : bool) (s : str) : list str :=
  match s with
  | [] => [[]]
  | c :: rest =>
      if (skip && isspace c)%bool then re_split_aux true rest
      else if is_terminator c then [c] :: re_split_aux true rest
      else cons_head c (re_split_aux false rest)
  end.

Definition re_split (s : str) : list str := re_split_aux false s.

(** [s.lstrip()], [s.rstrip()] and [s.strip()]. *)
Fixpoint lstrip (s : str) : str :=
  match s with
  | [] => []
  | c :: rest => if isspace c then lstrip rest else s
  end.

Definition rstrip (s : str) : str := rev (lstrip (rev s)).

Definition strip (s : str) : str := rstrip (lstrip s).

(** [range(start, stop, step)]: a zero step raises [ValueError]. *)
Definition range (start stop step : Z) : result (list Z) :=
  if step =? 0 then Raise ValueError
  else
    let n := if step >? 0
             then (stop - start + step - 1) / step
             else (start - stop - step - 1) / (- step) in
    Ok (map (fun k => start + Z.of_nat k * step) (seq 0 (Z.to_nat n))).

(** [s[i:j]] for indices that are not negative (the only ones the source
    produces); indices beyond the end are clamped. *)
Definition slice {A : Type} (s : list A) (i j : Z) : list A :=
  firstn (Z.to_nat (j - i)) (skipn (Z.to_nat i) s).

End Py.

Import Py.

(** ** The chunker: [DocumentTranslator.smart_chunk_text] *)

Record DocumentTranslator : Type := mkTranslator {
  max_chunk_size : Z
}.

(** Where a chunk was appended to [chunks]; ghost information that no branch
    of the code reads.  [p] is the position of the paragraph in
    [paragraphs]. *)
Inductive origin : Type :=
| Paragraphs                 (* "\n\n".join(current_chunk) *)
| Sentences (p : nat)        (* "".join(current_chunk) *)
| HardCut (p : nat).         (* sentence[i : i + max_chunk_size] *)

(** The three local variables of [smart_chunk_text]. *)
Record chunker : Type := mkChunker {
  chunks : list (origin * str);
  current_chunk : list str;
  current_size : Z
}.

Definition PARA_SEP : str := [LF; LF].

Definition chunker_init : chunker := mkChunker [] [] 0.

(** [for i in range(0, len(sentence), max): chunks.append(sentence[i:i+max])] *)
Definition hard_cut (self : DocumentTranslator) (p : nat) (sentence : str)
    (st : chunker) : result chunker :=
  idx <- range 0 (len sentence) (max_chunk_size self) ;;
  Ok (fold_left
        (fun st i =>
           mkChunker
             (chunks st ++ [(HardCut p, slice sentence i (i + max_chunk_size self))])
             (current_chunk st) (current_size st))
        idx st).

(** Body of [for sentence in sentences]. *)
Definition sentence_step (self : DocumentTranslator) (p : nat) (sentence : str)
    (st : chunker) : result chunker :=
  if len sentence >? max_chunk_size self then
    hard_cut self p sentence st
  else if current_size st + len sentence >? max_chunk_size self then
    Ok (mkChunker
          (if truthy (current_chunk st)
           then chunks st ++ [(Sentences p, join [] (current_chunk st))]
           else chunks st)
          [sentence] (len sentence))
  else
    Ok (mkChunker (chunks st) (current_chunk st ++ [sentence])
          (current_size st + len sentence)).

Fixpoint sentence_loop (self : DocumentTranslator) (p : nat)
    (sentences : list str) (st : chunker) : result chunker :=
  match sentences with
  | [] => Ok st
  | sentence :: rest =>
      st' <- sentence_step self p sentence st ;;
      sentence_loop self p rest st'
  end.

(** [if current_chunk: chunks.append(glue.join(current_chunk));
     current_chunk = []; current_size = 0] *)
Definition flush (o : origin) (glue : str) (st : chunker) : chunker :=
  if truthy (current_chunk st)
  then mkChunker (chunks st ++ [(o, join glue (current_chunk st))]) [] 0
  else st.

(** Body of [for para in paragraphs]. *)
Definition para_step (self : DocumentTranslator) (p : nat) (para : str)
    (st : chunker) : result chunker :=
  let para_size := len para in
  if para_size >? max_chunk_size self then
    let st1 := flush Paragraphs PARA_SEP st in
    st2 <- sentence_loop self p (re_split para) st1 ;;
    Ok (flush (Sentences p) [] st2)
  else if current_size st + para_size >? max_chunk_size self then
    Ok (mkChunker
          (chunks st ++ [(Paragraphs, join PARA_SEP (current_chunk st))])
          [para] para_size)
  else
    Ok (mkChunker (chunks st) (current_chunk st ++ [para])
          (current_size st + para_size + 2)).

Fixpoint para_loop (self : DocumentTranslator) (p : nat)
    (paragraphs : list str) (st : chunker) : result chunker :=
  match paragraphs with
  | [] => Ok st
  | para :: rest =>
      st' <- para_step self p para st ;;
      para_loop self (S p) rest st'
  end.

(** The chunks together with their origins. *)
Definition smart_chunk_trace (self : DocumentTranslator) (text : str)
    : result (list (origin * str)) :=
  st <- para_loop self 0 (split_nn text) chunker_init ;;
  Ok (chunks (flush Paragraphs PARA_SEP st)).

(** [smart_chunk_text(self, text)]: the list the method returns. *)
Definition smart_chunk_text (self : DocumentTranslator) (text : str)
    : result (list str) :=
  tr <- smart_chunk_trace self text ;;
  Ok (map snd tr).

(** ** The pipeline: [get_translator_instance] and [translate_text] *)

(** The three backend classes imported from the translation library. *)
Inductive engine : Type :=
| GoogleTranslator
| MicrosoftTranslator
| MyMemoryTranslator.

(** A constructed backend object: its class and its language pair. *)
Record translator : Type := mkBackend {
  backend_class : engine;
  source : str;
  target : str
}.

(** One [translator.translate(...)] call: the backend object it went to, the
    text submitted, and (ghost) the index [i] of the chunk in the chunk loop,
    [None] for the single call of a short text. *)
Record call : Type := mkCall {
  call_chunk : option nat;
  call_backend : translator;
  call_text : str
}.

(** The local state of the chunk loop of [translate_text], with the state of
    the outside world the backend talks to and the calls made so far. *)
Record pipeline (World : Type) : Type := mkPipeline {
  translated_chunks : list str;
  world : World;
  calls : list call
}.

Arguments mkPipeline {World}.
Arguments translated_chunks {World}.
Arguments world {World}.
Arguments calls {World}.

(** What a run of [translate_text] leaves behind: the value returned or the
    exception raised, the world, and the backend calls it made. *)
Record outcome (World : Type) : Type := mkOutcome {
  returned : result str;
  world_after : World;
  backend_calls : list call
}.

Arguments mkOutcome {World}.
Arguments returned {World}.
Arguments world_after {World}.
Arguments backend_calls {World}.

Definition SENTINEL : str := lit "[Translation unavailable for this section]".

Definition max_retries : nat := 3.

Fixpoint str_eqb (a b : str) : bool :=
  match a, b with
  | [], [] => true
  | x :: a', y :: b' => ((x =? y)%N && str_eqb a' b')%bool
  | _, _ => false
  end.

Section Pipeline.

(** The translation library is external: its behaviour is a parameter.
    [init_error] is the exception a constructor raises for a language pair
    it rejects; [backend_translate] is [translator.translate(text)], which
    returns a string or raises, and may change the world. *)
Variable World : Type.
Variable init_error : engine -> str -> str -> option exn.
Variable backend_translate : translator -> str -> World -> result str * World.

(** [Cls(source=source_code, target=target_code)]. *)
Definition construct (cls : engine) (source_code target_code : str)
    : result translator :=
  match init_error cls source_code target_code with
  | Some e => Raise e
  | None => Ok (mkBackend cls source_code target_code)
  end.

Definition get_translator_instance (self : DocumentTranslator)
    (translator_type source_code target_code : str) : result translator :=
  if str_eqb translator_type (lit "google") then
    construct GoogleTranslator source_code target_code
  else if str_eqb translator_type (lit "microsoft") then
    construct MicrosoftTranslator source_code target_code
  else if str_eqb translator_type (lit "mymemory") then
    construct MyMemoryTranslator source_code target_code
  else
    construct GoogleTranslator source_code target_code.

(** [while retry_count < max_retries: try ... except Exception ...] for the
    chunk of index [i]; [left] is [max_retries - retry_count].  A successful
    call appends the translation and breaks; a failed one increments
    [retry_count] and, when no attempt is left, appends the sentinel. *)
Fixpoint retry_loop (translator : translator) (i : nat) (chunk : str)
    (left : nat) (st : pipeline World) : pipeline World :=
  match left with
  | O => st
  | S left' =>
      let (r, w) := backend_translate translator chunk (world st) in
      let log := calls st ++ [mkCall (Some i) translator chunk] in
      match r with
      | Ok translated =>
          mkPipeline (translated_chunks st ++ [translated]) w log
      | Raise _ =>
          retry_loop translator i chunk left'
            (mkPipeline
               (if (0 <? left')%nat
                then translated_chunks st
                else translated_chunks st ++ [SENTINEL])
               w log)
      end
  end.

(** [for i, chunk in enumerate(chunks)]. *)
Fixpoint chunk_loop (translator : translator) (i : nat) (chunks : list str)
    (st : pipeline World) : pipeline World :=
  match chunks with
  | [] => st
  | chunk :: rest =>
      chunk_loop translator (S i) rest
        (retry_loop translator i chunk max_retries st)
  end.

(** [translate_text(self, text, target_code, source_code, translator_type)]
    run in world [w].  The progress widgets and the pacing sleeps are
    observational and left out. *)
Definition translate_text (self : DocumentTranslator)
    (text target_code source_code translator_type : str) (w : World)
    : outcome World :=
  if negb (truthy (strip text)) then mkOutcome (Ok []) w []
  else if len text <=? max_chunk_size self then
    match construct GoogleTranslator source_code target_code with
    | Raise e => mkOutcome (Raise e) w []
    | Ok translator =>
        let (r, w') := backend_translate translator text w in
        mkOutcome r w' [mkCall None translator text]
    end
  else
    match smart_chunk_text self text with
    | Raise e => mkOutcome (Raise e) w []
    | Ok chunks =>
        match construct GoogleTranslator source_code target_code with
        | Raise e => mkOutcome (Raise e) w []
        | Ok translator =>
            let st := chunk_loop translator 0 chunks (mkPipeline [] w []) in
            mkOutcome (Ok (join PARA_SEP (translated_chunks st)))
              (world st) (calls st)
        end
    end.

End Pipeline.

Arguments retry_loop {World} backend_translate translator i chunk left st.
Arguments chunk_loop {World} backend_translate translator i chunks st.
Arguments translate_text {World} init_error backend_translate self text target_code source_code translator_type w.

(** ** Vocabulary of the properties *)

(** The calls of a log made for the chunk of index [i]. *)
Definition for_chunk (i : nat) (c : call) : bool :=
  match call_chunk c with
  | Some j => (j =? i)%nat
  | None => false
  end.

Definition calls_for (i : nat) (log : list call) : list call :=
  filter (for_chunk i) log.

(** The call was made for a chunk whose index lies in [lo, hi). *)
Definition indexed_in (lo hi : nat) (c : call) : Prop :=
  exists j, call_chunk c = Some j /\ (lo <= j < hi)%nat.

(** What a chunk may contribute to [translated_chunks]: a string some
    backend call on that chunk returned, or the sentinel. *)
Definition chunk_result {World : Type}
    (backend_translate : translator -> str -> World -> result str * World)
    (translator : translator) (chunk r : str) : Prop :=
  r = SENTINEL \/
  exists w1 w2, backend_translate translator chunk w1 = (Ok r, w2).

(** The consecutive slices of [m] characters of [s], [n] of them. *)
Definition pieces (m n : nat) (s : str) : list str :=
  map (fun k => firstn m (skipn (k * m) s)) (seq 0 n).

(** The paragraph a sentence-level or hard-cut chunk was taken from. *)
Definition paragraph_of (o : origin) : option nat :=
  match o with
  | Paragraphs => None
  | Sentences p | HardCut p => Some p
  end.

Definition same_paragraph (o1 o2 : origin) : bool :=
  match paragraph_of o1, paragraph_of o2 with
  | Some p, Some q => (p =? q)%nat
  | _, _ => false
  end.

(** The delimiter between two neighbouring chunks: nothing between two
    chunks cut from the same over-long paragraph, the paragraph delimiter
    between any other two. *)
Definition glue (o1 o2 : origin) : str :=
  if same_paragraph o1 o2 then [] else PARA_SEP.

(** Rejoining chunks with the delimiters of the splitting. *)
Fixpoint rejoin (cs : list (origin * str)) : str :=
  match cs with
  | [] => []
  | (o, c) :: rest =>
      match rest with
      | [] => c
      | (o', _) :: _ => c ++ glue o o' ++ rejoin rest
      end
  end.

Definition first_origin (cs : list (origin * str)) : option origin :=
  match cs with
  | [] => None
  | (o, _) :: _ => Some o
  end.

Fixpoint last_origin (cs : list (origin * str)) : option origin :=
  match cs with
  | [] => None
  | (o, _) :: rest =>
      match rest with
      | [] => Some o
      | _ :: _ => last_origin rest
      end
  end.

(** Text accumulated paragraph by paragraph; [None] before the first one. *)
Definition extend (acc : option str) (q : str) : option str :=
  Some match acc with
       | None => q
       | Some x => x ++ PARA_SEP ++ q
       end.

Definition joined (ps : list str) : option str :=
  match ps with
  | [] => None
  | _ :: _ => Some (join PARA_SEP ps)
  end.

Definition opt_rejoin (cs : list (origin * str)) : option str :=
  match cs with
  | [] => None
  | _ :: _ => Some (rejoin cs)
  end.

(** What the chunker state stands for: the chunks emitted so far, rejoined,
    followed by the accumulated paragraphs. *)
Definition so_far (st : chunker) : option str :=
  match current_chunk st with
  | [] => opt_rejoin (chunks st)
  | _ :: _ => extend (opt_rejoin (chunks st)) (join PARA_SEP (current_chunk st))
  end.

(** Every chunk emitted so far comes from a paragraph before [p], and an
    empty accumulator has size zero. *)
Definition chunker_wf (p : nat) (st : chunker) : Prop :=
  (current_chunk st = [] -> current_size st = 0)
  /\ Forall (fun oc => forall q, paragraph_of (fst oc) = Some q -> (q < p)%nat)
       (chunks st).

(** No sentence of an over-long paragraph is itself over-long. *)
Definition no_oversized_sentence (self : DocumentTranslator) (para : str) : Prop :=
  len para > max_chunk_size self ->
  Forall (fun s => len s <= max_chunk_size self) (re_split para).

(** [s] without the whitespace that follows a sentence terminator; [skip]
    is true right after a terminator and inside the whitespace behind it. *)
Fixpoint squeeze_aux (skip : bool) (s : str) : str :=
  match s with
  | [] => []
  | c :: rest =>
      if (skip && isspace c)%bool then squeeze_aux true rest
      else c :: squeeze_aux (is_terminator c) rest
  end.

Definition squeeze (s : str) : str := squeeze_aux false s.

(** What the chunks of one paragraph add up to: the paragraph itself when it
    fits, the paragraph without the whitespace after its terminators when it
    goes through sentence splitting. *)
Definition as_chunked (self : DocumentTranslator) (para : str) : str :=
  if len para >? max_chunk_size self then squeeze para else para.

(** Total size the chunker charges for a list of accumulated paragraphs. *)
Fixpoint size_sum (ps : list str) : Z :=
  match ps with
  | [] => 0
  | p :: rest => len p + 2 + size_sum rest
  end.

(** The shape of a hard cut of [sentence]: consecutive slices that add up to
    the sentence, as many as [len(sentence) / max] rounded up, all of [max]
    characters except the last, which has between 1 and [max]. *)
Definition hard_cut_shape (max : Z) (sentence : str) (slices : list str) : Prop :=
  concat slices = sentence
  /\ len slices = (len sentence + max - 1) / max
  /\ Forall (fun x => len x = max) (removelast slices)
  /\ 0 < len (last slices []) <= max.

(** The size a chunk of each origin is kept under: sentence-level chunks and
    hard-cut slices never exceed [max_chunk_size]; a paragraph-level chunk
    may exceed it by the two characters of one delimiter. *)
Definition within_bound (self : DocumentTranslator) (oc : origin * str) : Prop :=
  match fst oc with
  | Paragraphs => len (snd oc) <= max_chunk_size self + 2
  | Sentences _ | HardCut _ => len (snd oc) <= max_chunk_size self
  end.

(** Invariant of the paragraph loop for the sizes. *)
Definition para_sized (self : DocumentTranslator) (st : chunker) : Prop :=
  Forall (within_bound self) (chunks st)
  /\ (current_chunk st = [] -> current_size st = 0)
  /\ (current_chunk st <> [] ->
      len (join PARA_SEP (current_chunk st)) <= current_size st
      /\ len (join PARA_SEP (current_chunk st)) <= max_chunk_size self + 2).

(** Invariant of the sentence loop for the sizes. *)
Definition sentence_sized (self : DocumentTranslator) (st : chunker) : Prop :=
  Forall (within_bound self) (chunks st)
  /\ current_size st = len (concat (current_chunk st))
  /\ len (concat (current_chunk st)) <= max_chunk_size self.

(** ** Concrete backends used in the examples *)

(** A library that accepts every language pair. *)
Definition accept_all : engine -> str -> str -> option exn :=
  fun _ _ _ => None.

(** A library that rejects every language pair. *)
Definition reject_all : engine -> str -> str -> option exn :=
  fun _ _ _ => Some (BackendError 1).

(** A backend that fails on every call; the world counts the calls. *)
Definition always_fails : translator -> str -> nat -> result str * nat :=
  fun _ _ n => (Raise (BackendError 0), S n).

(** A backend that answers with the text it was given. *)
Definition echo : translator -> str -> nat -> result str * nat :=
  fun _ text n => (Ok text, S n).

(** A backend that fails on its calls of even rank (the first, the third,
    ...) and echoes on the others. *)
Definition flaky : translator -> str -> nat -> result str * nat :=
  fun _ text n => (if Nat.even n then Raise (BackendError 0) else Ok text, S n).

(** ** The document source and sink: [extract_text_from_docx], [save_as_docx] *)

(** A Word document, as far as the two methods see it: the texts of its
    paragraphs, in order ([doc.paragraphs], [doc.add_paragraph]). *)
Definition docx : Type := list str.

(** [extract_text_from_docx(self, file)] on the document [Document(file)]. *)
Definition extract_text_from_docx (doc : docx) : str :=
  let text :=
    fold_left
      (fun text paragraph =>
         if truthy (strip paragraph) then text ++ [paragraph] else text)
      doc [] in
  join PARA_SEP text.

(** [save_as_docx(self, text)]: the document that is written to the
    buffer. *)
Definition save_as_docx (text : str) : docx :=
  fold_left
    (fun doc paragraph =>
       if truthy (strip paragraph) then doc ++ [paragraph] else doc)
    (split_nn text) [].

(** ** The script: loading the upload and triggering the translation *)

(** The four entries of [st.session_state] the script keeps. *)
Record session : Type := mkSession {
  translated_text : str;
  last_file_id : option str;
  last_translator : option str;
  current_text : str
}.

(** The uploaded file: its identifier [f"{name}_{size}"], and what opening
    it gives (after conversion for a [.doc]): the document, or the exception
    raised by the conversion or by the reader. *)
Record uploaded_file : Type := mkUpload {
  file_id : str;
  document : result docx
}.

(** Truthiness of [current_file_id], which is [None] or a string. *)
Definition truthy_id (i : option str) : bool :=
  match i with
  | None => false
  | Some x => truthy x
  end.

(** [a != b] on values that are [None] or strings. *)
Definition differs (a b : option str) : bool :=
  match a, b with
  | None, None => false
  | Some x, Some y => negb (str_eqb x y)
  | _, _ => true
  end.

(** What one run of the script leaves: the session, the world, the backend
    calls made, whether [st.rerun()] was reached, and the document offered
    for download, if any. *)
Record run_result (World : Type) : Type := mkRun {
  session_after : session;
  run_world : World;
  run_calls : list call;
  rerun : bool;
  download : option docx
}.

Arguments mkRun {World}.
Arguments session_after {World}.
Arguments run_world {World}.
Arguments run_calls {World}.
Arguments rerun {World}.
Arguments download {World}.

(** "Determine input source and extract text": [text_to_translate],
    [current_file_id] and the session after the upload was looked at.  Both
    handlers of the source leave [text_to_translate] empty when the
    conversion or the reader raises. *)
Definition load_upload (uploaded : option uploaded_file) (s : session)
    : str * option str * session :=
  match uploaded with
  | None => ([], None, s)
  | Some f =>
      let text_to_translate :=
        match document f with
        | Ok doc => extract_text_from_docx doc
        | Raise _ => []
        end in
      if truthy text_to_translate
      then (text_to_translate, Some (file_id f),
            mkSession (translated_text s) (last_file_id s) (last_translator s)
              text_to_translate)
      else (text_to_translate, None, s)
  end.

Section Script.

Variable World : Type.
Variable init_error : engine -> str -> str -> option exn.
Variable backend_translate : translator -> str -> World -> result str * World.

(** One run of [main] from the upload to the download button, for the
    widget values [translator_type], [source_code] and [target_code] (the
    codes of the two selected languages).  The widgets themselves are left
    out. *)
Definition script_run (self : DocumentTranslator)
    (uploaded : option uploaded_file)
    (translator_type source_code target_code : str)
    (s : session) (w : World) : run_result World :=
  let '(text_to_translate, current_file_id, s) := load_upload uploaded s in
  (* if current_file_id and current_file_id != last_file_id *)
  let new_file := (truthy_id current_file_id
                   && differs current_file_id (last_file_id s))%bool in
  let s := if new_file
           then mkSession (translated_text s) current_file_id
                  (last_translator s) (current_text s)
           else s in
  (* if translator_type != last_translator and current_text *)
  let new_translator := (differs (Some translator_type) (last_translator s)
                         && truthy (current_text s))%bool in
  let text_to_translate := if new_translator then current_text s
                           else text_to_translate in
  let s := if new_translator
           then mkSession (translated_text s) (last_file_id s)
                  (Some translator_type) (current_text s)
           else s in
  let needs_translation := (new_file || new_translator)%bool in
  let offer (s : session) :=
    if truthy (translated_text s)
    then Some (save_as_docx (translated_text s)) else None in
  if (needs_translation && truthy (strip text_to_translate))%bool then
    let out := translate_text init_error backend_translate self
                 text_to_translate target_code source_code translator_type w in
    match returned out with
    | Ok translated =>
        (* st.rerun() ends the run: its control exception is not an
           Exception, so the handler below does not see it *)
        mkRun (mkSession translated (last_file_id s) (last_translator s)
                 (current_text s))
          (world_after out) (backend_calls out) true None
    | Raise _ =>
        let s := mkSession [] (last_file_id s) (last_translator s)
                   (current_text s) in
        mkRun s (world_after out) (backend_calls out) false (offer s)
    end
  else mkRun s w [] false (offer s).

End Script.

Arguments script_run {World} init_error backend_translate self uploaded translator_type source_code target_code s w.

(** ** Vocabulary of the further properties *)


(** The non-blank paragraphs of a document. *)
Definition kept (doc : docx) : docx :=
  filter (fun p => truthy (strip p)) doc.

(** The indices of the chunks the calls of a log were made for. *)
Definition call_indices (log : list call) : list nat :=
  flat_map (fun c => match call_chunk c with Some i => [i] | None => [] end) log.

(** [log] calls the chunks [cs], numbered from [i], in order: each chunk is
    called [k] times in a row, [1 <= k <= 3], on the translator [tr]. *)
Fixpoint calls_follow (tr : translator) (i : nat) (cs : list str)
    (log : list call) : Prop :=
  match cs with
  | [] => log = []
  | c :: rest =>
      exists k tail,
        (1 <= k <= 3)%nat
        /\ log = repeat (mkCall (Some i) tr c) k ++ tail
        /\ calls_follow tr (S i) rest tail
  end.

(** The chunker has something to show: a chunk emitted or a paragraph or
    sentence accumulated. *)
Definition has_output (st : chunker) : Prop :=
  chunks st <> [] \/ current_chunk st <> [].

(** The chunk comes from the sentence branch of paragraph [p]. *)
Definition from_paragraph (p : nat) (oc : origin * str) : Prop :=
  paragraph_of (fst oc) = Some p.

(** A string that does not start with a whitespace character. *)
Definition no_leading_space (s : str) : bool :=
  match s with
  | [] => true
  | c :: _ => negb (isspace c)
  end.

(** A string whose last character is a sentence terminator. *)
Definition ends_with_terminator (s : str) : bool :=
  match rev s with
  | [] => false
  | c :: _ => is_terminator c
  end.

(** The text and the identifier a run gets from the upload. *)
Definition upload_text (uploaded : option uploaded_file) : str :=
  match uploaded with
  | None => []
  | Some f =>
      match document f with
      | Ok doc => extract_text_from_docx doc
      | Raise _ => []
      end
  end.

Definition upload_id (uploaded : option uploaded_file) : option str :=
  match uploaded with
  | None => None
  | Some f => if truthy (upload_text uploaded) then Some (file_id f) else None
  end.

(** A session in which a run with this upload and this key has nothing to
    do: the text of the upload is the current text, the file is the last
    file and the key is the last key (or no text was ever loaded). *)
Definition settled (uploaded : option uploaded_file) (translator_type : str)
    (s : session) : Prop :=
  (truthy (upload_text uploaded) = true -> current_text s = upload_text uploaded)
  /\ (truthy_id (upload_id uploaded)
      && differs (upload_id uploaded) (last_file_id s))%bool = false
  /\ (differs (Some translator_type) (last_translator s)
      && truthy (current_text s))%bool = false.

(** ** The built-ins on small inputs *)

Example split_nn_ex1 :
  split_nn (lit "a" ++ [LF; LF; LF] ++ lit "b") = [lit "a"; LF :: lit "b"].
Proof. reflexivity. Qed.

Example split_nn_ex2 : split_nn [LF; LF; LF; LF] = [[]; []; []].
Proof. reflexivity. Qed.

Example split_nn_ex3 : split_nn [] = [[]].
Proof. reflexivity. Qed.

Example re_split_ex1 : re_split (lit " a.  b! c") = [lit " a."; lit "b!"; lit "c"].
Proof. reflexivity. Qed.

Example re_split_ex2 : re_split (lit "a..") = [lit "a."; lit "."; []].
Proof. reflexivity. Qed.

Example re_split_ex3 : re_split (lit "x . y") = [lit "x ."; lit "y"].
Proof. reflexivity. Qed.

Example re_split_ex4 :
  re_split (lit "a" ++ [12290; 12288]%N ++ lit "b") = [lit "a" ++ [12290%N]; lit "b"].
Proof. reflexivity. Qed.

Example range_ex1 : range 0 3000 1500 = Ok [0; 1500].
Proof. reflexivity. Qed.

Example range_ex2 : range 0 7 3 = Ok [0; 3; 6].
Proof. reflexivity. Qed.

Example range_ex3 : range 0 5 (-2) = Ok [].
Proof. reflexivity. Qed.

Example range_ex4 : range 0 5 0 = Raise ValueError.
Proof. reflexivity. Qed.

Example strip_ex1 : strip (lit "  a b ") = lit "a b".
Proof. reflexivity. Qed.

(** ** The chunker and the pipeline on small inputs *)

Example chunk_ex1 :
  smart_chunk_text (mkTranslator 3) (lit "aa" ++ PARA_SEP ++ lit "bb" ++ PARA_SEP ++ lit "c")
  = Ok [lit "aa"; lit "bb" ++ PARA_SEP ++ lit "c"].
Proof. reflexivity. Qed.

Example chunk_ex2 :
  smart_chunk_text (mkTranslator 3) (lit "a. b") = Ok [lit "a.b"].
Proof. reflexivity. Qed.

Example chunk_ex3 :
  smart_chunk_text (mkTranslator 4) (lit "ab.ccccccccc.")
  = Ok [lit "cccc"; lit "cccc"; lit "c."; lit "ab."].
Proof. reflexivity. Qed.

Example translate_ex1 :
  translate_text accept_all flaky (mkTranslator 3) (lit "aa bb cc") (lit "en") (lit "auto") (lit "microsoft") 0%nat
  = mkOutcome (Ok (lit "aa " ++ PARA_SEP ++ lit "bb " ++ PARA_SEP ++ lit "cc")) 6%nat
      (let g := mkBackend GoogleTranslator (lit "auto") (lit "en") in
       [mkCall (Some 0%nat) g (lit "aa "); mkCall (Some 0%nat) g (lit "aa ");
        mkCall (Some 1%nat) g (lit "bb "); mkCall (Some 1%nat) g (lit "bb ");
        mkCall (Some 2%nat) g (lit "cc"); mkCall (Some 2%nat) g (lit "cc")]).
Proof. reflexivity. Qed.

(** ** Facts about the built-ins *)

Lemma len_nonneg {A : Type} (s : list A) : 0 <= len s.
Proof. unfold len. lia. Qed.

Lemma len_app {A : Type} (a b : list A) : len (a ++ b) = len a + len b.
Proof. unfold len. rewrite length_app. lia. Qed.

Lemma lstrip_nil_iff (s : str) : lstrip s = [] <-> forallb isspace s = true.
Proof.
  induction s as [|c s IH]; simpl.
  - tauto.
  - destruct (isspace c); simpl.
    + exact IH.
    + split; discriminate.
Qed.

Lemma lstrip_head (s : str) c r : lstrip s = c :: r -> isspace c = false.
Proof.
  induction s as [|d s IH]; simpl; [discriminate|].
  destruct (isspace d) eqn:E; [exact IH|].
  intros H. injection H as -> _. exact E.
Qed.

(** [not text.strip()] holds exactly for the empty and the whitespace-only
    texts. *)
Lemma strip_blank (s : str) : truthy (strip s) = negb (forallb isspace s).
Proof.
  unfold strip, rstrip.
  destruct (lstrip s) as [|c r] eqn:E.
  - simpl. apply lstrip_nil_iff in E. now rewrite E.
  - assert (Hs : forallb isspace s = false).
    { destruct (forallb isspace s) eqn:F; [|reflexivity].
      apply lstrip_nil_iff in F. congruence. }
    rewrite Hs. simpl negb.
    apply lstrip_head in E.
    destruct (lstrip (rev (c :: r))) as [|d t] eqn:F.
    + apply lstrip_nil_iff in F. rewrite forallb_forall in F.
      specialize (F c). rewrite <- in_rev in F. simpl in F.
      rewrite F in E by auto. discriminate.
    + destruct (rev (d :: t)) eqn:G; [|reflexivity].
      apply (f_equal (@length _)) in G. rewrite length_rev in G. discriminate.
Qed.

(** ** Joining and splitting *)

Lemma join_cons sep x xs :
  xs <> [] -> join sep (x :: xs) = x ++ sep ++ join sep xs.
Proof. destruct xs; [congruence|reflexivity]. Qed.

Lemma join_app sep xs ys :
  xs <> [] -> ys <> [] ->
  join sep (xs ++ ys) = join sep xs ++ sep ++ join sep ys.
Proof.
  intros Hx Hy. induction xs as [|x xs IH]; [congruence|].
  destruct xs as [|x' xs].
  - cbn [app]. now rewrite join_cons.
  - change ((x :: x' :: xs) ++ ys) with (x :: ((x' :: xs) ++ ys)).
    rewrite join_cons by (cbn [app]; discriminate).
    rewrite IH by discriminate.
    rewrite (join_cons sep x (x' :: xs)) by discriminate.
    now rewrite <- !app_assoc.
Qed.

Lemma join_snoc sep xs y :
  xs <> [] -> join sep (xs ++ [y]) = join sep xs ++ sep ++ y.
Proof. intros H. now rewrite join_app. Qed.

Lemma join_empty_sep xs : join [] xs = concat xs.
Proof.
  induction xs as [|x xs IH]; [reflexivity|].
  destruct xs as [|x' xs]; [cbn; now rewrite app_nil_r|].
  rewrite join_cons by discriminate. cbn [app concat] in *. now rewrite IH.
Qed.

Lemma cons_head_nonempty c xs : cons_head c xs <> [].
Proof. destruct xs; discriminate. Qed.

Lemma join_cons_head sep c xs :
  xs <> [] -> join sep (cons_head c xs) = c :: join sep xs.
Proof.
  destruct xs as [|x xs]; [congruence|]. intros _.
  destruct xs; reflexivity.
Qed.

Lemma split_nn_eq (s : str) :
  split_nn s
  = match s with
    | [] => [[]]
    | c :: rest =>
        match rest with
        | d :: rest' =>
            if ((c =? LF)%N && (d =? LF)%N)%bool
            then [] :: split_nn rest'
            else cons_head c (split_nn rest)
        | [] => [[c]]
        end
    end.
Proof. destruct s; reflexivity. Qed.

(** Induction two characters at a time, as [split_nn] recurses. *)
Lemma str_ind2 (P : str -> Prop) :
  P [] -> (forall c, P [c]) ->
  (forall c d r, P r -> P (d :: r) -> P (c :: d :: r)) ->
  forall s, P s.
Proof.
  intros H0 H1 H2 s.
  enough (P s /\ forall c, P (c :: s)) by tauto.
  induction s as [|d r [IHr IHc]]; split; auto.
Qed.

Lemma split_nn_nonempty s : split_nn s <> [].
Proof.
  induction s as [|c|c d r IH1 IH2] using str_ind2; try discriminate.
  rewrite split_nn_eq.
  destruct ((c =? LF)%N && (d =? LF)%N)%bool; [discriminate|].
  apply cons_head_nonempty.
Qed.

(** [text.split("\n\n")] loses nothing: joining the paragraphs with the
    delimiter gives the text back. *)
Lemma join_split_nn s : join PARA_SEP (split_nn s) = s.
Proof.
  induction s as [|c|c d r IH1 IH2] using str_ind2; try reflexivity.
  rewrite split_nn_eq.
  destruct ((c =? LF)%N && (d =? LF)%N)%bool eqn:E.
  - apply andb_prop in E as [Ec Ed].
    apply N.eqb_eq in Ec, Ed. subst c d.
    rewrite join_cons by apply split_nn_nonempty.
    now rewrite IH1.
  - rewrite join_cons_head by apply split_nn_nonempty.
    now rewrite IH2.
Qed.

Lemma size_sum_app xs ys : size_sum (xs ++ ys) = size_sum xs + size_sum ys.
Proof.
  induction xs as [|x xs IH]; cbn [app size_sum] in *; [lia|].
  rewrite IH. lia.
Qed.

Lemma size_sum_nonneg xs : 0 <= size_sum xs.
Proof.
  induction xs as [|x xs IH]; cbn [size_sum] in *; [lia|].
  pose proof (len_nonneg x). lia.
Qed.

Lemma len_join_para xs :
  xs <> [] -> len (join PARA_SEP xs) = size_sum xs - 2.
Proof.
  induction xs as [|x xs IH]; [congruence|]. intros _.
  destruct xs as [|x' xs].
  - cbn [join size_sum]. lia.
  - rewrite join_cons by discriminate. rewrite !len_app, IH by discriminate.
    cbn [size_sum]. change (len PARA_SEP) with 2. lia.
Qed.

(** ** The chunker returns *)

Lemma range_pos stop step :
  0 < step ->
  range 0 stop step
  = Ok (map (fun k => 0 + Z.of_nat k * step)
          (seq 0 (Z.to_nat ((stop - 0 + step - 1) / step)))).
Proof.
  intros H. unfold range.
  destruct (Z.eqb_spec step 0); [lia|].
  destruct (Z.gtb_spec step 0); [reflexivity|lia].
Qed.

Lemma hard_cut_ok self p s st :
  0 < max_chunk_size self -> exists st', hard_cut self p s st = Ok st'.
Proof.
  intros H. unfold hard_cut. rewrite (range_pos _ _ H). simpl. eauto.
Qed.

Lemma sentence_step_ok self p s st :
  0 < max_chunk_size self -> exists st', sentence_step self p s st = Ok st'.
Proof.
  intros H. unfold sentence_step.
  destruct (len s >? max_chunk_size self); [now apply hard_cut_ok|].
  destruct (current_size st + len s >? max_chunk_size self); eauto.
Qed.

Lemma sentence_loop_ok self p ss : forall st,
  0 < max_chunk_size self -> exists st', sentence_loop self p ss st = Ok st'.
Proof.
  induction ss as [|s ss IH]; intros st H; simpl; [eauto|].
  destruct (sentence_step_ok self p s st H) as [st1 ->]. simpl. now apply IH.
Qed.

Lemma para_step_ok self p para st :
  0 < max_chunk_size self -> exists st', para_step self p para st = Ok st'.
Proof.
  intros H. unfold para_step.
  destruct (len para >? max_chunk_size self).
  - destruct (sentence_loop_ok self p (re_split para)
                (flush Paragraphs PARA_SEP st) H) as [st2 ->].
    simpl. eauto.
  - destruct (current_size st + len para >? max_chunk_size self); eauto.
Qed.

Lemma para_loop_ok self ps : forall p st,
  0 < max_chunk_size self -> exists st', para_loop self p ps st = Ok st'.
Proof.
  induction ps as [|para ps IH]; intros p st H; simpl; [eauto|].
  destruct (para_step_ok self p para st H) as [st1 ->]. simpl. now apply IH.
Qed.

(** With a positive chunk size the chunker never raises. *)
Lemma smart_chunk_text_ok self text :
  0 < max_chunk_size self -> exists cs, smart_chunk_text self text = Ok cs.
Proof.
  intros H. unfold smart_chunk_text, smart_chunk_trace.
  destruct (para_loop_ok self (split_nn text) 0%nat chunker_init H) as [st ->].
  simpl. eauto.
Qed.

(** ** Facts about the retry loop and the chunk loop *)

Section PipelineFacts.

Context {World : Type}.
Variable init_error : engine -> str -> str -> option exn.
Variable backend_translate : translator -> str -> World -> result str * World.

Local Abbreviation retry := (retry_loop backend_translate).
Local Abbreviation loop := (chunk_loop backend_translate).

Lemma calls_for_app i l1 l2 :
  calls_for i (l1 ++ l2) = calls_for i l1 ++ calls_for i l2.
Proof. apply filter_app. Qed.

Lemma calls_for_repeat i j tr c k :
  calls_for i (repeat (mkCall (Some j) tr c) k)
  = if (j =? i)%nat then repeat (mkCall (Some j) tr c) k else [].
Proof.
  unfold calls_for.
  induction k as [|k IH]; simpl.
  - now destruct (j =? i)%nat.
  - unfold for_chunk at 1. simpl. rewrite IH. now destruct (j =? i)%nat.
Qed.

(** One run of the retry loop appends exactly one result and makes between
    one and [left] calls, all for this chunk; the result is the sentinel
    only after [left] failed calls. *)
Lemma retry_loop_spec tr i chunk left st :
  (0 < left)%nat ->
  exists r w k,
    retry tr i chunk left st
    = mkPipeline (translated_chunks st ++ [r]) w
        (calls st ++ repeat (mkCall (Some i) tr chunk) k)
    /\ (1 <= k <= left)%nat
    /\ ((r = SENTINEL /\ k = left) \/
        (exists w1 w2, backend_translate tr chunk w1 = (Ok r, w2))).
Proof.
  revert st. induction left as [|left IH]; intros st Hl; [lia|].
  simpl. destruct (backend_translate tr chunk (world st)) as [[t|e] w] eqn:E.
  - exists t, w, 1%nat. simpl. repeat split; try lia. right. eauto.
  - destruct left as [|left].
    + simpl. exists SENTINEL, w, 1%nat. simpl. repeat split; try lia. now left.
    + change (0 <? S left)%nat with true. cbv iota.
      destruct (IH (mkPipeline (translated_chunks st) w
                      (calls st ++ [mkCall (Some i) tr chunk]))) as (r & w' & k & Hr & Hk & Hres);
        [lia|].
      exists r, w', (S k). rewrite Hr. cbn [translated_chunks calls].
      rewrite <- app_assoc. simpl. repeat split; try lia.
      destruct Hres as [[-> ->]|Hok]; [now left|now right].
Qed.

Lemma chunk_loop_app tr i a b st :
  loop tr i (a ++ b) st = loop tr (i + length a) b (loop tr i a st).
Proof.
  revert i st. induction a as [|c a IH]; intros i st; cbn [chunk_loop app length].
  - now rewrite Nat.add_0_r.
  - rewrite IH. f_equal. lia.
Qed.

Lemma calls_for_outside i lo hi log :
  Forall (indexed_in lo hi) log -> (i < lo \/ hi <= i)%nat ->
  calls_for i log = [].
Proof.
  intros HF Hi. induction HF as [|c log (j & Hj & Hr) _ IH]; [reflexivity|].
  unfold calls_for in *. simpl. unfold for_chunk at 1. rewrite Hj.
  destruct (Nat.eqb_spec j i); [lia|exact IH].
Qed.

(** The chunk loop appends one result per chunk, in order; every call goes
    to the translator it was given, for a chunk of the loop, and no chunk
    gets more than three calls. *)
Lemma chunk_loop_spec tr chunks : forall i st,
  exists results w log,
    loop tr i chunks st
    = mkPipeline (translated_chunks st ++ results) w (calls st ++ log)
    /\ Forall2 (chunk_result backend_translate tr) chunks results
    /\ Forall (fun c => call_backend c = tr) log
    /\ Forall (indexed_in i (i + length chunks)) log
    /\ (forall j, (length (calls_for j log) <= 3)%nat).
Proof.
  induction chunks as [|c chunks IH]; intros i st.
  - exists [], (world st), []. simpl. rewrite !app_nil_r.
    destruct st; repeat split; auto.
  - cbn [chunk_loop].
    destruct (retry_loop_spec tr i c max_retries st) as (r & w & k & Hr & Hk & Hres);
      [unfold max_retries; lia|].
    rewrite Hr.
    destruct (IH (S i) (mkPipeline (translated_chunks st ++ [r]) w
                         (calls st ++ repeat (mkCall (Some i) tr c) k)))
      as (rs & w' & log & Hl & HF2 & HFb & HFi & Hcnt).
    rewrite Hl. cbn [translated_chunks calls].
    exists (r :: rs), w', (repeat (mkCall (Some i) tr c) k ++ log).
    rewrite <- !app_assoc. cbn [app]. repeat split.
    + constructor; [|exact HF2].
      destruct Hres as [[-> _]|Hok]; [now left|now right].
    + apply Forall_app. split; [|exact HFb].
      apply Forall_forall. intros x Hx. apply repeat_spec in Hx. now subst x.
    + apply Forall_app. split.
      * apply Forall_forall. intros x Hx. apply repeat_spec in Hx. subst x.
        exists i. cbn [call_chunk length]. split; [reflexivity|lia].
      * eapply Forall_impl; [|exact HFi].
        intros x (j & Hj & Hrange). exists j. cbn [length]. split; [exact Hj|lia].
    + intros j. rewrite calls_for_app, length_app, calls_for_repeat.
      destruct (Nat.eqb_spec i j) as [->|Hne].
      * rewrite repeat_length.
        rewrite (calls_for_outside j (S j) (S j + length chunks) log HFi) by lia.
        unfold max_retries in Hk. simpl. lia.
      * simpl. apply Hcnt.
Qed.

(** A backend that fails on every call: three calls, then the sentinel. *)
Lemma retry_loop_always_fails tr i chunk st :
  (forall c w, exists e w', backend_translate tr c w = (Raise e, w')) ->
  exists w,
    retry tr i chunk max_retries st
    = mkPipeline (translated_chunks st ++ [SENTINEL]) w
        (calls st ++ repeat (mkCall (Some i) tr chunk) 3).
Proof.
  intros Hfail. unfold max_retries. cbn [retry_loop].
  destruct (Hfail chunk (world st)) as (e1 & w1 & ->).
  cbn [world calls translated_chunks Nat.ltb Nat.leb].
  destruct (Hfail chunk w1) as (e2 & w2 & ->).
  cbn [world calls translated_chunks Nat.ltb Nat.leb].
  destruct (Hfail chunk w2) as (e3 & w3 & ->).
  cbn [world calls translated_chunks Nat.ltb Nat.leb].
  exists w3. now rewrite <- !app_assoc.
Qed.

Lemma chunk_loop_always_fails tr chunks : forall i st,
  (forall c w, exists e w', backend_translate tr c w = (Raise e, w')) ->
  translated_chunks (loop tr i chunks st)
  = translated_chunks st ++ repeat SENTINEL (length chunks).
Proof.
  induction chunks as [|c chunks IH]; intros i st Hfail; cbn [chunk_loop length repeat].
  - now rewrite app_nil_r.
  - destruct (retry_loop_always_fails tr i c st Hfail) as [w ->].
    rewrite IH by exact Hfail. cbn [translated_chunks].
    now rewrite <- app_assoc.
Qed.

(** A backend that fails once on the chunk and then answers: two calls, and
    the answer is what the chunk contributes. *)
Lemma retry_loop_second_attempt tr i chunk st e s w1 w2 :
  backend_translate tr chunk (world st) = (Raise e, w1) ->
  backend_translate tr chunk w1 = (Ok s, w2) ->
  retry tr i chunk max_retries st
  = mkPipeline (translated_chunks st ++ [s]) w2
      (calls st ++ [mkCall (Some i) tr chunk; mkCall (Some i) tr chunk]).
Proof.
  intros H1 H2. unfold max_retries. cbn [retry_loop]. rewrite H1.
  cbn [world calls translated_chunks Nat.ltb Nat.leb]. rewrite H2.
  now rewrite <- app_assoc.
Qed.

Lemma construct_class cls sc tc tr :
  construct init_error cls sc tc = Ok tr -> tr = mkBackend cls sc tc.
Proof.
  unfold construct. destruct (init_error cls sc tc); [discriminate|].
  now intros [= <-].
Qed.

(** Shape of a run on a text that is longer than the chunk size and not
    blank, once the chunker and the constructor have returned. *)
Lemma translate_text_long self text tc sc tt w cs tr :
  forallb isspace text = false ->
  len text > max_chunk_size self ->
  smart_chunk_text self text = Ok cs ->
  construct init_error GoogleTranslator sc tc = Ok tr ->
  translate_text init_error backend_translate self text tc sc tt w
  = let st := loop tr 0 cs (mkPipeline [] w []) in
    mkOutcome (Ok (join PARA_SEP (translated_chunks st))) (world st) (calls st).
Proof.
  intros Hb Hl Hc Ht. unfold translate_text.
  rewrite strip_blank, Hb. cbn [negb].
  destruct (Z.leb_spec (len text) (max_chunk_size self)); [lia|].
  now rewrite Hc, Ht.
Qed.

(** Shape of a run on a blank text and on a short text. *)
Lemma blank_or_short_run self text tc sc tt w :
  (forallb isspace text = true ->
   translate_text init_error backend_translate self text tc sc tt w
   = mkOutcome (Ok []) w [])
  /\
  (forallb isspace text = false ->
   len text <= max_chunk_size self ->
   forall tr, construct init_error GoogleTranslator sc tc = Ok tr ->
   translate_text init_error backend_translate self text tc sc tt w
   = mkOutcome (fst (backend_translate tr text w))
       (snd (backend_translate tr text w))
       [mkCall None tr text]).
Proof.
  split.
  - intros Hb. unfold translate_text. now rewrite strip_blank, Hb.
  - intros Hb Hl tr Ht. unfold translate_text.
    rewrite strip_blank, Hb. cbn [negb].
    destruct (Z.leb_spec (len text) (max_chunk_size self)); [|lia].
    rewrite Ht. now destruct (backend_translate tr text w).
Qed.

(** C7. On an empty or whitespace-only text [translate_text] returns the
    empty string at once, with no backend call and the world untouched; on
    any other text of length at most [max_chunk_size], once the translator
    object is built, it makes exactly one backend call, on the whole text,
    and returns (or raises) what that call returns (or raises). *)
Theorem translate_text_blank_or_short self text tc sc tt w :
  (forallb isspace text = true ->
   translate_text init_error backend_translate self text tc sc tt w
   = mkOutcome (Ok []) w [])
  /\
  (forallb isspace text = false ->
   len text <= max_chunk_size self ->
   forall tr, construct init_error GoogleTranslator sc tc = Ok tr ->
   translate_text init_error backend_translate self text tc sc tt w
   = mkOutcome (fst (backend_translate tr text w))
       (snd (backend_translate tr text w))
       [mkCall None tr text]).
Proof.
  destruct (blank_or_short_run self text tc sc tt w) as [Hblank Hshort].
  split.
  - exact Hblank.
  - intros Hb Hl tr Ht. now apply Hshort.
Qed.

(** C10. The run of [translate_text] does not depend on [translator_type]:
    for the same text, language codes, backend behaviour and world, two
    selection keys give the same returned value, the same world and the same
    backend calls. *)
Theorem translate_text_independent_of_translator_type
    self text tc sc (t1 t2 : str) w :
  translate_text init_error backend_translate self text tc sc t1 w
  = translate_text init_error backend_translate self text tc sc t2 w.
Proof. reflexivity. Qed.

(** Every backend call of [translate_text] goes to a [GoogleTranslator]
    object, whatever the selection key. *)
Lemma translate_text_calls_google self text tc sc tt w :
  Forall (fun c => backend_class (call_backend c) = GoogleTranslator)
    (backend_calls
       (translate_text init_error backend_translate self text tc sc tt w)).
Proof.
  unfold translate_text.
  destruct (negb (truthy (strip text))); [constructor|].
  destruct (len text <=? max_chunk_size self).
  - destruct (construct init_error GoogleTranslator sc tc) as [tr|e] eqn:Ht;
      [|constructor].
    apply construct_class in Ht. subst tr.
    destruct (backend_translate _ text w). cbn. now repeat constructor.
  - destruct (smart_chunk_text self text) as [cs|e]; [|constructor].
    destruct (construct init_error GoogleTranslator sc tc) as [tr|e] eqn:Ht;
      [|constructor].
    apply construct_class in Ht.
    destruct (chunk_loop_spec tr cs 0%nat (mkPipeline [] w []))
      as (rs & w' & log & Hl & _ & HFb & _).
    cbn zeta. rewrite Hl. cbn [backend_calls calls app].
    eapply Forall_impl; [|exact HFb]. intros c ->. now subst tr.
Qed.

(** C3, as amended.  For a text longer than [max_chunk_size]: an exception
    of [translate_text] was raised before any backend call (none was made and
    the world is untouched); no chunk is attempted more than three times; and
    with a translator whose every call fails, on a text that is not blank and
    a positive chunk size, the run returns, every chunk's result is the
    sentinel and the returned string is these sentinels joined by the
    paragraph delimiter.  For a text that is not blank and has at most
    [max_chunk_size] characters, the exception of the one backend call is
    the exception of [translate_text]. *)
Theorem translate_text_long_never_raises_from_backend self text tc sc tt w :
  let out := translate_text init_error backend_translate self text tc sc tt w in
  (len text > max_chunk_size self ->
   (forall e, returned out = Raise e -> backend_calls out = [] /\ world_after out = w)
   /\ (forall i, (length (calls_for i (backend_calls out)) <= 3)%nat)
   /\ (0 < max_chunk_size self ->
       forallb isspace text = false ->
       forall tr, construct init_error GoogleTranslator sc tc = Ok tr ->
       (forall c w0, exists e w1, backend_translate tr c w0 = (Raise e, w1)) ->
       exists cs,
         smart_chunk_text self text = Ok cs
         /\ translated_chunks (loop tr 0 cs (mkPipeline [] w []))
            = repeat SENTINEL (length cs)
         /\ returned out = Ok (join PARA_SEP (repeat SENTINEL (length cs)))))
  /\
  (len text <= max_chunk_size self ->
   forallb isspace text = false ->
   forall tr e w1,
     construct init_error GoogleTranslator sc tc = Ok tr ->
     backend_translate tr text w = (Raise e, w1) ->
     returned out = Raise e /\ backend_calls out = [mkCall None tr text]).
Proof.
  intros out. subst out. split; [intros Hl; repeat split|].
  - revert H. unfold translate_text.
    destruct (negb (truthy (strip text))); [discriminate|].
    destruct (Z.leb_spec (len text) (max_chunk_size self)); [lia|].
    destruct (smart_chunk_text self text); [|reflexivity].
    destruct (construct init_error GoogleTranslator sc tc); [|reflexivity].
    discriminate.
  - revert H. unfold translate_text.
    destruct (negb (truthy (strip text))); [discriminate|].
    destruct (Z.leb_spec (len text) (max_chunk_size self)); [lia|].
    destruct (smart_chunk_text self text); [|reflexivity].
    destruct (construct init_error GoogleTranslator sc tc); [|reflexivity].
    discriminate.
  - intros i. unfold translate_text.
    destruct (negb (truthy (strip text))); [cbn; lia|].
    destruct (Z.leb_spec (len text) (max_chunk_size self)); [lia|].
    destruct (smart_chunk_text self text) as [cs|e]; [|cbn; lia].
    destruct (construct init_error GoogleTranslator sc tc) as [tr|e]; [|cbn; lia].
    destruct (chunk_loop_spec tr cs 0%nat (mkPipeline [] w []))
      as (rs & w' & log & Hloop & _ & _ & _ & Hcnt).
    cbn zeta. rewrite Hloop. cbn [backend_calls calls app]. apply Hcnt.
  - intros Hpos Hb tr Ht Hfail.
    destruct (smart_chunk_text_ok self text Hpos) as [cs Hc].
    exists cs. split; [exact Hc|].
    pose proof (chunk_loop_always_fails tr cs 0%nat (mkPipeline [] w []) Hfail) as Hs.
    cbn [translated_chunks app] in Hs. split; [exact Hs|].
    rewrite (translate_text_long self text tc sc tt w cs tr Hb Hl Hc Ht).
    cbn zeta. cbn [returned]. now rewrite Hs.
  - intros Hl Hb tr e w1 Ht Hcall.
    rewrite (proj2 (blank_or_short_run self text tc sc tt w) Hb Hl tr Ht).
    rewrite Hcall. split; reflexivity.
Qed.

(** C6, as amended.  For a text that is not blank and longer than a positive
    [max_chunk_size], once the translator object is built: the chunk loop
    leaves one result per chunk of the chunker, in the order of the chunks,
    each one a string the backend returned for that chunk or the sentinel,
    and [translate_text] returns these results joined by the paragraph
    delimiter.  A blank text gives the empty string whatever its length. *)
Theorem translate_text_results_follow_chunks self text tc sc tt w :
  (forallb isspace text = false ->
   len text > max_chunk_size self ->
   0 < max_chunk_size self ->
   forall tr, construct init_error GoogleTranslator sc tc = Ok tr ->
   exists cs results,
     smart_chunk_text self text = Ok cs
     /\ results = translated_chunks (loop tr 0 cs (mkPipeline [] w []))
     /\ length results = length cs
     /\ Forall2 (chunk_result backend_translate tr) cs results
     /\ returned (translate_text init_error backend_translate self text tc sc tt w)
        = Ok (join PARA_SEP results))
  /\
  (forallb isspace text = true ->
   translate_text init_error backend_translate self text tc sc tt w
   = mkOutcome (Ok []) w []).
Proof.
  split; [|apply blank_or_short_run].
  intros Hb Hl Hpos tr Ht.
  destruct (smart_chunk_text_ok self text Hpos) as [cs Hc].
  destruct (chunk_loop_spec tr cs 0%nat (mkPipeline [] w []))
    as (rs & w' & log & Hloop & HF2 & _).
  cbn [translated_chunks calls app] in Hloop.
  exists cs, rs. rewrite Hloop. cbn [translated_chunks].
  repeat split; auto.
  - symmetry. eapply Forall2_length; eauto.
  - rewrite (translate_text_long self text tc sc tt w cs tr Hb Hl Hc Ht).
    cbn zeta. now rewrite Hloop.
Qed.

(** C8. In a run on a text that is not blank and longer than
    [max_chunk_size], if the backend fails on the first attempt for the
    chunk of index [i] and answers [s] on the second, then exactly two
    backend calls are made for that chunk, both on that chunk, and the
    result at position [i] of the results that are joined into the returned
    string is [s]. *)
Theorem translate_text_second_attempt self text tc sc tt w tr pre c post e s w1 w2 :
  forallb isspace text = false ->
  len text > max_chunk_size self ->
  construct init_error GoogleTranslator sc tc = Ok tr ->
  smart_chunk_text self text = Ok (pre ++ c :: post) ->
  let i := length pre in
  let before := loop tr 0 pre (mkPipeline [] w []) in
  backend_translate tr c (world before) = (Raise e, w1) ->
  backend_translate tr c w1 = (Ok s, w2) ->
  let out := translate_text init_error backend_translate self text tc sc tt w in
  calls_for i (backend_calls out) = [mkCall (Some i) tr c; mkCall (Some i) tr c]
  /\ let results :=
       translated_chunks (loop tr 0 (pre ++ c :: post) (mkPipeline [] w [])) in
     returned out = Ok (join PARA_SEP results)
     /\ length results = length (pre ++ c :: post)
     /\ nth_error results i = Some s.
Proof.
  intros Hb Hl Ht Hc i before H1 H2 out. subst out.
  rewrite (translate_text_long self text tc sc tt w _ tr Hb Hl Hc Ht).
  cbn zeta. cbn [backend_calls returned].
  rewrite chunk_loop_app. cbn [chunk_loop Nat.add]. fold before. fold i.
  rewrite (retry_loop_second_attempt tr i c before e s w1 w2 H1 H2).
  destruct (chunk_loop_spec tr pre 0%nat (mkPipeline [] w []))
    as (rs1 & wa & log1 & Hpre & HF1 & _ & HFi1 & _).
  fold before in Hpre. cbn [translated_chunks calls app] in Hpre.
  rewrite Hpre. cbn [translated_chunks calls].
  match goal with |- context [loop tr (S i) post ?st] =>
    destruct (chunk_loop_spec tr post (S i) st)
      as (rs2 & wb & log2 & Hpost & HF2 & _ & HFi2 & _) end.
  rewrite Hpost. cbn [translated_chunks calls].
  pose proof (Forall2_length HF1) as Hlen1.
  pose proof (Forall2_length HF2) as Hlen2.
  split.
  - rewrite !calls_for_app.
    rewrite (calls_for_outside i 0 (0 + length pre) log1 HFi1) by (subst i; lia).
    rewrite (calls_for_outside i (S i) (S i + length post) log2 HFi2) by lia.
    rewrite app_nil_r. cbn [app]. unfold calls_for, for_chunk. cbn.
    now rewrite Nat.eqb_refl.
  - split; [reflexivity|]. split.
    + rewrite !length_app. cbn [length]. lia.
    + rewrite <- app_assoc. rewrite nth_error_app2 by (subst i; lia).
      replace (i - length rs1)%nat with 0%nat by (subst i; lia). reflexivity.
Qed.

End PipelineFacts.

(** ** Texts and paragraphs that fit *)

(** While everything seen so far and still to come fits in one chunk, the
    paragraph loop only accumulates. *)
Lemma para_loop_fits self rest : forall p done,
  size_sum (done ++ rest) - 2 <= max_chunk_size self ->
  para_loop self p rest (mkChunker [] done (size_sum done))
  = Ok (mkChunker [] (done ++ rest) (size_sum (done ++ rest))).
Proof.
  induction rest as [|para rest IH]; intros p done Hfit.
  - now rewrite app_nil_r.
  - cbn [para_loop]. unfold para_step. cbn [current_size current_chunk chunks].
    rewrite size_sum_app in Hfit. cbn [size_sum] in Hfit.
    pose proof (size_sum_nonneg done). pose proof (size_sum_nonneg rest).
    pose proof (len_nonneg para).
    destruct (Z.gtb_spec (len para) (max_chunk_size self)); [lia|].
    destruct (Z.gtb_spec (size_sum done + len para) (max_chunk_size self)); [lia|].
    cbn [bind].
    replace (size_sum done + len para + 2) with (size_sum (done ++ [para]))
      by (rewrite size_sum_app; cbn [size_sum]; lia).
    rewrite IH.
    + now rewrite <- app_assoc.
    + rewrite <- app_assoc. cbn [app]. rewrite size_sum_app. cbn [size_sum]. lia.
Qed.

(** A text that fits comes back as the one chunk. *)
Lemma smart_chunk_trace_fits self t :
  len t <= max_chunk_size self ->
  smart_chunk_trace self t = Ok [(Paragraphs, t)].
Proof.
  intros Hfit. unfold smart_chunk_trace, chunker_init.
  change (mkChunker [] [] 0) with (mkChunker [] [] (size_sum [])).
  rewrite para_loop_fits.
  - cbn [bind app]. unfold flush. cbn [current_chunk chunks].
    destruct (split_nn t) eqn:E; [now apply split_nn_nonempty in E|].
    cbn [truthy chunks app]. now rewrite <- E, join_split_nn.
  - cbn [app]. rewrite <- len_join_para by apply split_nn_nonempty.
    now rewrite join_split_nn.
Qed.

(** A paragraph of exactly [max_chunk_size] characters stays whole: it goes
    to the accumulator, and the only chunk the step may emit is the
    paragraph-level flush of what was accumulated before. *)
Lemma para_step_exact_fit self p para st :
  len para = max_chunk_size self ->
  exists st' before new,
    para_step self p para st = Ok st'
    /\ current_chunk st' = before ++ [para]
    /\ chunks st' = chunks st ++ new
    /\ Forall (fun oc => fst oc = Paragraphs) new.
Proof.
  intros Hlen. unfold para_step.
  destruct (Z.gtb_spec (len para) (max_chunk_size self)); [lia|].
  destruct (current_size st + len para >? max_chunk_size self).
  - eexists _, [], [_]. cbn. repeat split. now repeat constructor.
  - eexists _, (current_chunk st), []. cbn. rewrite app_nil_r. repeat split.
    constructor.
Qed.

(** C5, as amended.  With a positive chunk size, [smart_chunk_text] applied
    to the empty string returns one chunk, the empty string; for every text
    of length at most [max_chunk_size] it returns exactly one chunk, the text
    itself; and a paragraph of exactly [max_chunk_size] characters is treated
    as fitting: it enters the accumulator whole and no sentence-level or
    hard-cut chunk is made of it. *)
Theorem smart_chunk_text_small self :
  0 < max_chunk_size self ->
  smart_chunk_text self [] = Ok [[]]
  /\ (forall t, len t <= max_chunk_size self -> smart_chunk_text self t = Ok [t])
  /\ (forall p para st,
        len para = max_chunk_size self ->
        exists st' before new,
          para_step self p para st = Ok st'
          /\ current_chunk st' = before ++ [para]
          /\ chunks st' = chunks st ++ new
          /\ Forall (fun oc => fst oc = Paragraphs) new).
Proof.
  intros Hpos.
  assert (Hone : forall t, len t <= max_chunk_size self ->
                           smart_chunk_text self t = Ok [t]).
  { intros t Ht. unfold smart_chunk_text.
    now rewrite smart_chunk_trace_fits. }
  repeat split.
  - apply Hone. cbn. lia.
  - exact Hone.
  - intros p para st. apply para_step_exact_fit.
Qed.

(** ** The hard cut *)

Lemma firstn_plus {A : Type} (a b : nat) (l : list A) :
  firstn (a + b) l = firstn a l ++ firstn b (skipn a l).
Proof.
  revert l. induction a as [|a IH]; intros l; [reflexivity|].
  destruct l as [|x l]; cbn [Nat.add firstn skipn app].
  - now rewrite firstn_nil.
  - now rewrite IH.
Qed.

Lemma pieces_succ m n s :
  pieces m (S n) s = pieces m n s ++ [firstn m (skipn (n * m) s)].
Proof. unfold pieces. now rewrite seq_S, map_app. Qed.

Lemma pieces_concat m n s : concat (pieces m n s) = firstn (n * m) s.
Proof.
  induction n as [|n IH]; [reflexivity|].
  rewrite pieces_succ, concat_app, IH. cbn [concat]. rewrite app_nil_r.
  rewrite <- firstn_plus. f_equal. lia.
Qed.

Lemma pieces_length m n s : length (pieces m n s) = n.
Proof. unfold pieces. now rewrite length_map, length_seq. Qed.

(** Every slice that ends inside the sentence is full. *)
Lemma pieces_full m n s :
  (n * m <= length s)%nat ->
  Forall (fun x => length x = m) (pieces m n s).
Proof.
  intros H. unfold pieces. apply Forall_forall. intros x Hx.
  apply in_map_iff in Hx as (k & <- & Hk). apply in_seq in Hk.
  rewrite length_firstn, length_skipn. nia.
Qed.

Lemma fold_left_push (p : nat) (f : Z -> str) idx : forall st,
  fold_left
    (fun st i => mkChunker (chunks st ++ [(HardCut p, f i)])
                   (current_chunk st) (current_size st)) idx st
  = mkChunker (chunks st ++ map (fun i => (HardCut p, f i)) idx)
      (current_chunk st) (current_size st).
Proof.
  induction idx as [|i idx IH]; intros st; cbn [fold_left map].
  - rewrite app_nil_r. now destruct st.
  - rewrite IH. cbn [chunks current_chunk current_size].
    now rewrite <- app_assoc.
Qed.

(** The loop over [range(0, len(sentence), max_chunk_size)] appends the
    consecutive slices of [max_chunk_size] characters and nothing else. *)
Lemma hard_cut_pieces self p s st :
  0 < max_chunk_size self ->
  hard_cut self p s st
  = Ok (mkChunker
          (chunks st ++
           map (pair (HardCut p))
             (pieces (Z.to_nat (max_chunk_size self))
                (Z.to_nat ((len s + max_chunk_size self - 1) / max_chunk_size self))
                s))
          (current_chunk st) (current_size st)).
Proof.
  intros Hpos. unfold hard_cut. rewrite (range_pos _ _ Hpos). cbn [bind].
  rewrite fold_left_push. do 3 f_equal.
  unfold pieces. rewrite !map_map. rewrite Z.sub_0_r.
  apply map_ext. intros k. unfold slice. f_equal.
  replace (0 + Z.of_nat k * max_chunk_size self + max_chunk_size self
           - (0 + Z.of_nat k * max_chunk_size self))
    with (max_chunk_size self) by lia.
  rewrite Z.add_0_l, Z2Nat.inj_mul, Nat2Z.id by lia. reflexivity.
Qed.

(** The arithmetic of the slices: [n] slices of [m] characters cover a
    sentence of [l > 0] characters when [n] is [l / m] rounded up. *)
Lemma ceil_div_bounds (l m : Z) :
  0 < m -> 0 < l ->
  let n := (l + m - 1) / m in
  0 < n /\ (n - 1) * m < l <= n * m.
Proof.
  intros Hm Hl n.
  pose proof (Z.div_mod (l + m - 1) m ltac:(lia)) as Hdm.
  pose proof (Z.mod_pos_bound (l + m - 1) m Hm) as Hmod.
  fold n in Hdm. nia.
Qed.

(** Shape of the slices of an over-long sentence. *)
Lemma pieces_shape (max : Z) (s : str) :
  0 < max -> len s > max ->
  let slices := pieces (Z.to_nat max) (Z.to_nat ((len s + max - 1) / max)) s in
  hard_cut_shape max s slices.
Proof.
  intros Hpos Hlong slices.
  destruct (ceil_div_bounds (len s) max Hpos ltac:(lia)) as (Hn & Hlo & Hhi).
  set (n := (len s + max - 1) / max) in *.
  set (m := Z.to_nat max) in *.
  assert (Hm : Z.of_nat m = max) by (subst m; lia).
  destruct (Z.to_nat n) as [|n'] eqn:En; [lia|].
  assert (Hn' : Z.of_nat n' = n - 1) by lia.
  unfold hard_cut_shape, len in *.
  repeat split.
  - subst slices. rewrite pieces_concat. apply firstn_all2. nia.
  - subst slices. rewrite pieces_length. lia.
  - subst slices. rewrite pieces_succ, removelast_last.
    eapply Forall_impl; [|apply (pieces_full m n' s); nia].
    cbn beta. intros x Hx. lia.
  - subst slices. rewrite pieces_succ, last_last.
    rewrite length_firstn, length_skipn. nia.
  - subst slices. rewrite pieces_succ, last_last.
    rewrite length_firstn. lia.
Qed.

Lemma re_split_no_terminator s :
  existsb is_terminator s = false -> re_split s = [s].
Proof.
  unfold re_split. induction s as [|c s IH]; [reflexivity|].
  cbn [existsb re_split_aux andb]. intros H.
  apply orb_false_elim in H as [Hc Hs]. rewrite Hc, (IH Hs). reflexivity.
Qed.

Lemma sentence_step_hard_cut self p sentence st :
  0 < max_chunk_size self ->
  len sentence > max_chunk_size self ->
  exists slices,
    sentence_step self p sentence st
    = Ok (mkChunker (chunks st ++ map (pair (HardCut p)) slices)
            (current_chunk st) (current_size st))
    /\ hard_cut_shape (max_chunk_size self) sentence slices.
Proof.
  intros Hpos Hlong. unfold sentence_step.
  destruct (Z.gtb_spec (len sentence) (max_chunk_size self)); [|lia].
  rewrite hard_cut_pieces by exact Hpos.
  eexists. split; [reflexivity|]. now apply pieces_shape.
Qed.

(** A text that is one paragraph and one sentence, too long for a chunk. *)
Lemma smart_chunk_text_one_sentence self text :
  0 < max_chunk_size self ->
  split_nn text = [text] ->
  existsb is_terminator text = false ->
  len text > max_chunk_size self ->
  exists slices,
    smart_chunk_trace self text = Ok (map (pair (HardCut 0)) slices)
    /\ smart_chunk_text self text = Ok slices
    /\ hard_cut_shape (max_chunk_size self) text slices.
Proof.
  intros Hpos Hpara Hterm Hlong.
  destruct (sentence_step_hard_cut self 0 text chunker_init Hpos Hlong)
    as (slices & Hstep & Hshape).
  exists slices.
  assert (Htrace : smart_chunk_trace self text = Ok (map (pair (HardCut 0%nat)) slices)).
  { unfold smart_chunk_trace. rewrite Hpara. cbn [para_loop]. unfold para_step.
    destruct (Z.gtb_spec (len text) (max_chunk_size self)); [|lia].
    rewrite (re_split_no_terminator _ Hterm).
    change (flush Paragraphs PARA_SEP chunker_init) with chunker_init.
    cbn [sentence_loop]. rewrite Hstep. reflexivity. }
  repeat split; try apply Hshape; [exact Htrace|].
  unfold smart_chunk_text. rewrite Htrace. cbn [bind].
  rewrite map_map. cbn [snd]. now rewrite map_id.
Qed.

(** C9. A sentence longer than [max_chunk_size] is hard-cut: the sentence
    step appends consecutive slices of exactly [max_chunk_size] characters,
    only the last one possibly shorter, that add up to the sentence, and
    leaves the accumulator alone; a text made of one such sentence comes back
    as these slices; and a text of 3000 characters that is one paragraph
    without sentence terminators yields, for [max_chunk_size = 1500], exactly
    two chunks of 1500 and 1500 characters. *)
Theorem oversized_sentence_is_hard_cut :
  (forall self p sentence st,
     0 < max_chunk_size self ->
     len sentence > max_chunk_size self ->
     exists slices,
       sentence_step self p sentence st
       = Ok (mkChunker (chunks st ++ map (pair (HardCut p)) slices)
               (current_chunk st) (current_size st))
       /\ hard_cut_shape (max_chunk_size self) sentence slices)
  /\ (forall self text,
        0 < max_chunk_size self ->
        split_nn text = [text] ->
        existsb is_terminator text = false ->
        len text > max_chunk_size self ->
        exists slices,
          smart_chunk_text self text = Ok slices
          /\ hard_cut_shape (max_chunk_size self) text slices)
  /\ (forall text,
        len text = 3000 ->
        split_nn text = [text] ->
        existsb is_terminator text = false ->
        exists a b,
          smart_chunk_text (mkTranslator 1500) text = Ok [a; b]
          /\ len a = 1500 /\ len b = 1500 /\ a ++ b = text).
Proof.
  split; [|split].
  - intros. now apply sentence_step_hard_cut.
  - intros self text Hpos Hpara Hterm Hlong.
    destruct (smart_chunk_text_one_sentence self text Hpos Hpara Hterm Hlong)
      as (slices & _ & Hc & Hshape).
    eauto.
  - intros text Hlen Hpara Hterm.
    destruct (smart_chunk_text_one_sentence (mkTranslator 1500) text)
      as (slices & _ & Hc & Hcat & Hcount & Hfull & Hlast);
      cbn [max_chunk_size]; try lia; auto.
    cbn [max_chunk_size] in *. rewrite Hlen in Hcount.
    change ((3000 + 1500 - 1) / 1500) with 2 in Hcount.
    destruct slices as [|a [|b [|c slices]]]; unfold len in Hcount;
      cbn [length] in Hcount; try lia.
    exists a, b. cbn in Hfull, Hcat. rewrite app_nil_r in Hcat.
    apply Forall_inv in Hfull.
    repeat split; auto.
    rewrite <- Hcat, len_app in Hlen. lia.
Qed.

(** C1, the code at a failing input.  With [max_chunk_size = 3], the text of
    the three paragraphs "aa", "bb", "c" is cut into two paragraph-level
    chunks and the second one, "bb\n\nc", has 5 characters; with the default
    [max_chunk_size = 1500], paragraphs of 1000, 1000 and 500 characters give
    a paragraph-level chunk of 1502 characters.  No hard cut is involved. *)
Theorem paragraph_chunk_exceeds_max_chunk_size :
  (smart_chunk_trace (mkTranslator 3)
     (lit "aa" ++ PARA_SEP ++ lit "bb" ++ PARA_SEP ++ lit "c")
   = Ok [(Paragraphs, lit "aa"); (Paragraphs, lit "bb" ++ PARA_SEP ++ lit "c")]
   /\ len (lit "bb" ++ PARA_SEP ++ lit "c") = 5)
  /\
  (let a := repeat 97%N 1000 in
   let b := repeat 98%N 1000 in
   let c := repeat 99%N 500 in
   smart_chunk_trace (mkTranslator 1500) (a ++ PARA_SEP ++ b ++ PARA_SEP ++ c)
   = Ok [(Paragraphs, a); (Paragraphs, b ++ PARA_SEP ++ c)]
   /\ len (b ++ PARA_SEP ++ c) = 1502).
Proof.
  split; split; vm_compute; reflexivity.
Qed.

(** ** Rejoining the chunks *)

Lemma concat_cons_head c xs : concat (cons_head c xs) = c :: concat xs.
Proof. destruct xs; reflexivity. Qed.

(** The sentences of a paragraph add up to the paragraph without the
    whitespace after its terminators. *)
Lemma concat_re_split_aux s : forall skip,
  concat (re_split_aux skip s) = squeeze_aux skip s.
Proof.
  induction s as [|c s IH]; intros skip; [reflexivity|].
  cbn [re_split_aux squeeze_aux].
  destruct (skip && isspace c)%bool; [apply IH|].
  destruct (is_terminator c).
  - cbn [concat app]. now rewrite IH.
  - now rewrite concat_cons_head, IH.
Qed.

Lemma concat_re_split s : concat (re_split s) = squeeze s.
Proof. apply concat_re_split_aux. Qed.

Lemma re_split_aux_nonempty s : forall skip, re_split_aux skip s <> [].
Proof.
  induction s as [|c s IH]; intros skip; [discriminate|].
  cbn [re_split_aux].
  destruct (skip && isspace c)%bool; [apply IH|].
  destruct (is_terminator c); [discriminate|apply cons_head_nonempty].
Qed.

Lemma rejoin_app cs : forall ds o1 o2,
  last_origin cs = Some o1 -> first_origin ds = Some o2 ->
  rejoin (cs ++ ds) = rejoin cs ++ glue o1 o2 ++ rejoin ds.
Proof.
  induction cs as [|[o c] cs IH]; intros ds o1 o2 Hl Hf; [discriminate|].
  destruct cs as [|[o' c'] cs].
  - cbn in Hl. injection Hl as <-.
    destruct ds as [|[o3 d] ds]; [discriminate|].
    cbn in Hf. injection Hf as <-. reflexivity.
  - change (rejoin (((o, c) :: (o', c') :: cs) ++ ds))
      with (c ++ glue o o' ++ rejoin (((o', c') :: cs) ++ ds)).
    rewrite (IH ds o1 o2 Hl Hf).
    change (rejoin ((o, c) :: (o', c') :: cs))
      with (c ++ glue o o' ++ rejoin ((o', c') :: cs)).
    now rewrite <- !app_assoc.
Qed.

Lemma glue_same p : glue (Sentences p) (Sentences p) = [].
Proof. unfold glue, same_paragraph. cbn. now rewrite Nat.eqb_refl. Qed.

Lemma rejoin_block p es : rejoin (map (pair (Sentences p)) es) = concat es.
Proof.
  induction es as [|e es IH]; [reflexivity|].
  destruct es as [|e' es]; [cbn; now rewrite app_nil_r|].
  change (rejoin (map (pair (Sentences p)) (e :: e' :: es)))
    with (e ++ glue (Sentences p) (Sentences p)
            ++ rejoin (map (pair (Sentences p)) (e' :: es))).
  now rewrite IH, glue_same.
Qed.

Lemma rejoin_paragraphs cs :
  Forall (fun oc => fst oc = Paragraphs) cs ->
  rejoin cs = join PARA_SEP (map snd cs).
Proof.
  induction cs as [|[o c] cs IH]; intros HF; [reflexivity|].
  inversion HF as [|? ? Ho HF']; subst. cbn in Ho. subst o.
  destruct cs as [|[o' c'] cs]; [reflexivity|].
  change (rejoin ((Paragraphs, c) :: (o', c') :: cs))
    with (c ++ glue Paragraphs o' ++ rejoin ((o', c') :: cs)).
  now rewrite (IH HF').
Qed.

Lemma last_origin_app cs ds :
  ds <> [] -> last_origin (cs ++ ds) = last_origin ds.
Proof.
  intros Hd. induction cs as [|[o c] cs IH]; [reflexivity|].
  cbn [app last_origin]. destruct (cs ++ ds) eqn:E.
  - apply app_eq_nil in E as [_ E]. congruence.
  - exact IH.
Qed.

Lemma last_origin_in cs o :
  last_origin cs = Some o -> exists c, In (o, c) cs.
Proof.
  induction cs as [|[o' c'] cs IH]; [discriminate|].
  cbn [last_origin]. destruct cs as [|x cs].
  - intros [= <-]. exists c'. now left.
  - intros H. destruct (IH H) as [c Hc]. exists c. now right.
Qed.

Lemma last_origin_some cs : cs <> [] -> exists o, last_origin cs = Some o.
Proof.
  induction cs as [|[o c] cs IH]; [congruence|]. intros _.
  cbn [last_origin]. destruct cs; [eauto|]. apply IH. discriminate.
Qed.

Lemma joined_snoc ps q : joined (ps ++ [q]) = extend (joined ps) q.
Proof.
  destruct ps as [|x ps]; [reflexivity|].
  unfold extend. cbn [joined app]. f_equal.
  change (x :: ps ++ [q]) with ((x :: ps) ++ [q]).
  now rewrite join_snoc by discriminate.
Qed.

Lemma fold_extend qs : forall ps,
  fold_left extend qs (joined ps) = joined (ps ++ qs).
Proof.
  induction qs as [|q qs IH]; intros ps; cbn [fold_left].
  - now rewrite app_nil_r.
  - rewrite <- joined_snoc, IH, <- app_assoc. reflexivity.
Qed.

(** Appending a chunk of a later paragraph to the emitted chunks. *)
Lemma opt_rejoin_snoc p cs o c :
  Forall (fun oc => forall q, paragraph_of (fst oc) = Some q -> (q < p)%nat) cs ->
  (forall q, paragraph_of o = Some q -> q = p) ->
  opt_rejoin (cs ++ [(o, c)]) = extend (opt_rejoin cs) c.
Proof.
  intros HF Ho. destruct cs as [|x cs]; [reflexivity|].
  unfold opt_rejoin, extend. cbn [app].
  change (x :: cs ++ [(o, c)]) with ((x :: cs) ++ [(o, c)]).
  destruct (last_origin_some (x :: cs)) as [o1 Hl]; [discriminate|].
  rewrite (rejoin_app (x :: cs) [(o, c)] o1 o Hl eq_refl). cbn [rejoin].
  do 3 f_equal. unfold glue, same_paragraph.
  destruct (paragraph_of o1) as [q1|] eqn:E1; [|reflexivity].
  destruct (paragraph_of o) as [q|] eqn:E; [|reflexivity].
  destruct (last_origin_in _ _ Hl) as [c1 Hin].
  rewrite Forall_forall in HF. specialize (HF _ Hin q1 E1).
  specialize (Ho q eq_refl). subst q.
  destruct (Nat.eqb_spec q1 p); [lia|reflexivity].
Qed.

(** Flushing the accumulated paragraphs does not change what the state
    stands for. *)
Lemma so_far_flush p st :
  chunker_wf p st ->
  so_far (flush Paragraphs PARA_SEP st) = so_far st
  /\ current_chunk (flush Paragraphs PARA_SEP st) = []
  /\ current_size (flush Paragraphs PARA_SEP st) = 0
  /\ chunker_wf p (flush Paragraphs PARA_SEP st).
Proof.
  intros [Hsz HF]. unfold flush, so_far.
  destruct (current_chunk st) as [|x cur] eqn:E; cbn [truthy].
  - rewrite E. repeat split; auto.
  - cbn [current_chunk chunks current_size]. repeat split.
    + apply (opt_rejoin_snoc p); [exact HF|]. discriminate.
    + apply Forall_app. split; [exact HF|]. constructor; [|constructor].
      discriminate.
Qed.

Lemma opt_rejoin_block p base es :
  Forall (fun oc => forall q, paragraph_of (fst oc) = Some q -> (q < p)%nat) base ->
  es <> [] ->
  opt_rejoin (base ++ map (pair (Sentences p)) es) = extend (opt_rejoin base) (concat es).
Proof.
  intros HF He. destruct es as [|e es]; [congruence|].
  destruct base as [|x base].
  - cbn [app]. unfold opt_rejoin, extend. cbn [map]. f_equal.
    exact (rejoin_block p (e :: es)).
  - unfold opt_rejoin, extend. cbn [app].
    change (x :: base ++ map (pair (Sentences p)) (e :: es))
      with ((x :: base) ++ map (pair (Sentences p)) (e :: es)).
    destruct (last_origin_some (x :: base)) as [o1 Hl]; [discriminate|].
    rewrite (rejoin_app (x :: base) (map (pair (Sentences p)) (e :: es))
               o1 (Sentences p) Hl eq_refl).
    rewrite rejoin_block. do 3 f_equal. unfold glue, same_paragraph.
    destruct (paragraph_of o1) as [q1|] eqn:E1; [|reflexivity].
    destruct (last_origin_in _ _ Hl) as [c1 Hin].
    rewrite Forall_forall in HF. specialize (HF _ Hin q1 E1).
    cbn [paragraph_of]. destruct (Nat.eqb_spec q1 p); [lia|reflexivity].
Qed.

(** Without over-long sentences the sentence loop only moves sentences from
    the accumulator to sentence-level chunks, in order. *)
Lemma sentence_loop_concat self p sentences : forall st base es,
  Forall (fun s => len s <= max_chunk_size self) sentences ->
  chunks st = base ++ map (pair (Sentences p)) es ->
  exists st' es',
    sentence_loop self p sentences st = Ok st'
    /\ chunks st' = base ++ map (pair (Sentences p)) es'
    /\ concat es' ++ concat (current_chunk st')
       = concat es ++ concat (current_chunk st) ++ concat sentences
    /\ (current_chunk st <> [] \/ sentences <> [] -> current_chunk st' <> []).
Proof.
  induction sentences as [|s sentences IH]; intros st base es HF Hc.
  - exists st, es. cbn [sentence_loop concat]. rewrite app_nil_r.
    repeat split; auto. intros [H|H]; congruence.
  - inversion HF as [|? ? Hs HF']; subst.
    cbn [sentence_loop]. unfold sentence_step.
    destruct (Z.gtb_spec (len s) (max_chunk_size self)); [lia|].
    destruct (current_size st + len s >? max_chunk_size self).
    + cbn [bind].
      destruct (current_chunk st) as [|x cur] eqn:E; cbn [truthy].
      * edestruct (IH (mkChunker (chunks st) [s] (len s)) base es HF' Hc)
          as (st' & es' & Hl & Hc' & Hcat & Hne).
        exists st', es'. repeat split; auto.
        -- rewrite Hcat. cbn [current_chunk concat app]. now rewrite app_nil_r.
        -- intros _. apply Hne. left. discriminate.
      * edestruct (IH (mkChunker (chunks st ++ [(Sentences p, join [] (x :: cur))])
                         [s] (len s)) base (es ++ [join [] (x :: cur)]) HF')
          as (st' & es' & Hl & Hc' & Hcat & Hne).
        { cbn [chunks]. rewrite Hc, map_app, <- app_assoc. reflexivity. }
        exists st', es'. repeat split; auto.
        -- rewrite Hcat. cbn [current_chunk]. rewrite concat_app, join_empty_sep.
           cbn [concat]. rewrite !app_nil_r, <- !app_assoc. reflexivity.
        -- intros _. apply Hne. left. discriminate.
    + cbn [bind].
      edestruct (IH (mkChunker (chunks st) (current_chunk st ++ [s])
                       (current_size st + len s)) base es HF' Hc)
        as (st' & es' & Hl & Hc' & Hcat & Hne).
      exists st', es'. repeat split; auto.
      * rewrite Hcat. cbn [current_chunk]. rewrite concat_app.
        cbn [concat]. rewrite !app_nil_r, <- !app_assoc. reflexivity.
      * intros _. apply Hne. left. cbn [current_chunk].
        destruct (current_chunk st); discriminate.
Qed.

Lemma extend_extend acc a q :
  extend acc (a ++ PARA_SEP ++ q) = extend (extend acc a) q.
Proof. destruct acc; unfold extend; now rewrite <- ?app_assoc. Qed.

Lemma wf_weaken p st :
  Forall (fun oc => forall q, paragraph_of (fst oc) = Some q -> (q < p)%nat) (chunks st) ->
  Forall (fun oc => forall q, paragraph_of (fst oc) = Some q -> (q < S p)%nat) (chunks st).
Proof.
  apply Forall_impl. intros oc H q Hq. specialize (H q Hq). lia.
Qed.

(** One paragraph step adds the paragraph, as chunked, to what the state
    stands for. *)
Lemma para_step_so_far self p q st :
  chunker_wf p st ->
  no_oversized_sentence self q ->
  exists st',
    para_step self p q st = Ok st'
    /\ so_far st' = extend (so_far st) (as_chunked self q)
    /\ chunker_wf (S p) st'.
Proof.
  intros Hwf Hq. unfold para_step, as_chunked.
  destruct (Z.gtb_spec (len q) (max_chunk_size self)) as [Hlong|Hfit].
  - destruct (so_far_flush p st Hwf) as (Hso & Hcur & Hsz & [_ HF1]).
    set (st1 := flush Paragraphs PARA_SEP st) in *.
    destruct (sentence_loop_concat self p (re_split q) st1 (chunks st1) [])
      as (st2 & es2 & Hl & Hc2 & Hcat & Hne).
    { apply Hq. lia. }
    { cbn [map]. now rewrite app_nil_r. }
    rewrite Hl. cbn [bind].
    assert (Hcur2 : current_chunk st2 <> []).
    { apply Hne. right. apply re_split_aux_nonempty. }
    unfold flush. destruct (current_chunk st2) as [|x cur2] eqn:E2; [congruence|].
    cbn [truthy]. eexists. split; [reflexivity|].
    rewrite Hcur in Hcat. cbn [concat app] in Hcat.
    rewrite concat_re_split in Hcat.
    split.
    + unfold so_far at 1. cbn [current_chunk chunks].
      rewrite Hc2, <- app_assoc.
      change [(Sentences p, join [] (x :: cur2))]
        with (map (pair (Sentences p)) [join [] (x :: cur2)]).
      rewrite <- map_app.
      rewrite (opt_rejoin_block p) by
        (auto; destruct es2; discriminate).
      rewrite concat_app, join_empty_sep. cbn [concat]. rewrite app_nil_r, Hcat.
      rewrite <- Hso. unfold so_far. now rewrite Hcur.
    + split; [reflexivity|]. cbn [chunks].
      rewrite Hc2. apply Forall_app. split; [|constructor; [|constructor]].
      * apply Forall_app. split.
        -- eapply Forall_impl; [|exact HF1]. intros oc H k Hk.
           specialize (H k Hk). lia.
        -- apply Forall_forall. intros oc Hin.
           apply in_map_iff in Hin as (e & <- & _). cbn.
           intros k [= <-]. lia.
      * cbn. intros k [= <-]. lia.
  - destruct Hwf as [Hsz HF].
    destruct (Z.gtb_spec (current_size st + len q) (max_chunk_size self)) as [Hover|Hroom].
    + eexists. split; [reflexivity|].
      destruct (current_chunk st) as [|x cur] eqn:E.
      { specialize (Hsz eq_refl). lia. }
      split.
      * unfold so_far. cbn [current_chunk chunks join]. rewrite E.
        now rewrite (opt_rejoin_snoc p) by (auto; discriminate).
      * split; [discriminate|]. cbn [chunks].
        apply Forall_app. split; [now apply wf_weaken|].
        constructor; [|constructor]. discriminate.
    + eexists. split; [reflexivity|]. split.
      * unfold so_far. cbn [current_chunk chunks].
        destruct (current_chunk st) as [|x cur] eqn:E; [reflexivity|].
        change ((x :: cur) ++ [q]) with (x :: (cur ++ [q])).
        change (x :: (cur ++ [q])) with ((x :: cur) ++ [q]) at 2.
        rewrite join_snoc by discriminate. apply extend_extend.
      * split; [|now apply wf_weaken].
        cbn [current_chunk]. destruct (current_chunk st); discriminate.
Qed.

Lemma para_loop_so_far self rest : forall p st,
  chunker_wf p st ->
  Forall (no_oversized_sentence self) rest ->
  exists st',
    para_loop self p rest st = Ok st'
    /\ so_far st' = fold_left extend (map (as_chunked self) rest) (so_far st)
    /\ chunker_wf (p + length rest) st'.
Proof.
  induction rest as [|q rest IH]; intros p st Hwf HF.
  - exists st. cbn. rewrite Nat.add_0_r. auto.
  - inversion HF as [|? ? Hq HF']; subst.
    destruct (para_step_so_far self p q st Hwf Hq) as (st1 & Hs & Hso & Hwf1).
    destruct (IH (S p) st1 Hwf1 HF') as (st' & Hl & Hso' & Hwf').
    exists st'. cbn [para_loop map fold_left length]. rewrite Hs. cbn [bind].
    rewrite Hl, Hso', Hso. split; [reflexivity|]. split; [reflexivity|].
    replace (p + S (length rest))%nat with (S p + length rest)%nat by lia.
    exact Hwf'.
Qed.

(** Rejoining the chunks gives the paragraphs, as chunked, joined by the
    paragraph delimiter. *)
Lemma rejoin_smart_chunk_trace self text :
  Forall (no_oversized_sentence self) (split_nn text) ->
  exists cs,
    smart_chunk_trace self text = Ok cs
    /\ rejoin cs = join PARA_SEP (map (as_chunked self) (split_nn text)).
Proof.
  intros HF. unfold smart_chunk_trace.
  destruct (para_loop_so_far self (split_nn text) 0%nat chunker_init) as (st & Hl & Hso & Hwf).
  { split; [reflexivity|constructor]. }
  { exact HF. }
  rewrite Hl. cbn [bind]. eexists. split; [reflexivity|].
  destruct (so_far_flush _ st Hwf) as (Hso' & Hcur & _).
  change (so_far chunker_init) with (joined []) in Hso.
  rewrite fold_extend in Hso. cbn [app] in Hso.
  rewrite <- Hso' in Hso. unfold so_far in Hso. rewrite Hcur in Hso.
  destruct (split_nn text) as [|q qs] eqn:E; [now apply split_nn_nonempty in E|].
  cbn [map joined] in Hso.
  destruct (chunks (flush Paragraphs PARA_SEP st)); [discriminate|].
  cbn [opt_rejoin] in Hso. now injection Hso.
Qed.

Lemma para_loop_fit_origins self rest : forall p st st',
  Forall (fun q => len q <= max_chunk_size self) rest ->
  Forall (fun oc => fst oc = Paragraphs) (chunks st) ->
  para_loop self p rest st = Ok st' ->
  Forall (fun oc => fst oc = Paragraphs) (chunks st').
Proof.
  induction rest as [|q rest IH]; intros p st st' HF Hc Hl.
  - cbn in Hl. now injection Hl as <-.
  - inversion HF as [|? ? Hq HF']; subst.
    cbn [para_loop] in Hl. unfold para_step in Hl.
    destruct (Z.gtb_spec (len q) (max_chunk_size self)); [lia|].
    destruct (current_size st + len q >? max_chunk_size self);
      cbn [bind] in Hl; apply (IH _ _ _ HF') in Hl; auto.
    cbn [chunks]. apply Forall_app. split; [exact Hc|].
    now repeat constructor.
Qed.

(** When every paragraph fits, the chunks joined by the paragraph delimiter
    are the text. *)
Lemma join_smart_chunk_text_fitting self text :
  Forall (fun q => len q <= max_chunk_size self) (split_nn text) ->
  exists cs, smart_chunk_text self text = Ok cs /\ join PARA_SEP cs = text.
Proof.
  intros HF.
  destruct (rejoin_smart_chunk_trace self text) as (cs & Hc & Hr).
  { eapply Forall_impl; [|exact HF]. intros q Hq Hlong. cbv beta in Hq. lia. }
  unfold smart_chunk_text. rewrite Hc. cbn [bind]. eexists. split; [reflexivity|].
  rewrite <- rejoin_paragraphs.
  - rewrite Hr. rewrite <- (join_split_nn text) at 2. f_equal.
    rewrite <- (map_id (split_nn text)) at 2. apply map_ext_in.
    intros q Hin. rewrite Forall_forall in HF. specialize (HF q Hin).
    unfold as_chunked. destruct (Z.gtb_spec (len q) (max_chunk_size self)); [lia|reflexivity].
  - unfold smart_chunk_trace in Hc.
    destruct (para_loop self 0 (split_nn text) chunker_init) as [st|e] eqn:El;
      [|discriminate].
    cbn [bind] in Hc. injection Hc as <-.
    apply para_loop_fit_origins in El; [|exact HF|constructor].
    unfold flush. destruct (truthy (current_chunk st)); [|exact El].
    cbn [chunks]. apply Forall_app. split; [exact El|]. now repeat constructor.
Qed.

(** C2, as amended.  For every text and positive chunk size: (1) when no
    sentence of an over-long paragraph is itself over-long, rejoining the
    chunks (nothing between chunks cut from the same over-long paragraph, the
    paragraph delimiter elsewhere) gives the text in which every paragraph
    longer than [max_chunk_size] has lost the whitespace that follows its
    sentence terminators, and nothing else; (2) when no paragraph is longer
    than [max_chunk_size], the chunks joined by the paragraph delimiter are
    the text itself; (3) the slices of a hard-cut sentence, concatenated
    directly, are that sentence. *)
Theorem rejoining_the_chunks self text :
  0 < max_chunk_size self ->
  (Forall (no_oversized_sentence self) (split_nn text) ->
   exists cs,
     smart_chunk_trace self text = Ok cs
     /\ rejoin cs = join PARA_SEP (map (as_chunked self) (split_nn text)))
  /\ (Forall (fun q => len q <= max_chunk_size self) (split_nn text) ->
      exists cs, smart_chunk_text self text = Ok cs /\ join PARA_SEP cs = text)
  /\ (forall p sentence st,
        len sentence > max_chunk_size self ->
        exists slices,
          sentence_step self p sentence st
          = Ok (mkChunker (chunks st ++ map (pair (HardCut p)) slices)
                  (current_chunk st) (current_size st))
          /\ concat slices = sentence).
Proof.
  intros Hpos. split; [|split].
  - apply rejoin_smart_chunk_trace.
  - apply join_smart_chunk_text_fitting.
  - intros p sentence st Hlong.
    destruct (sentence_step_hard_cut self p sentence st Hpos Hlong)
      as (slices & Hs & Hcat & _).
    eauto.
Qed.

(** C4, the code at a failing input.  Every backend call of
    [translate_text] goes to a [GoogleTranslator] object, whatever the
    selection key; for the key "microsoft", which
    [get_translator_instance] maps to [MicrosoftTranslator], the call for
    the text "Hello" is made on a [GoogleTranslator]. *)
Theorem selection_key_is_ignored :
  (forall (World : Type) init_error
          (backend_translate : translator -> str -> World -> result str * World)
          self text tc sc tt w,
     Forall (fun c => backend_class (call_backend c) = GoogleTranslator)
       (backend_calls
          (translate_text init_error backend_translate self text tc sc tt w)))
  /\ get_translator_instance accept_all (mkTranslator 1500)
       (lit "microsoft") (lit "auto") (lit "en")
     = Ok (mkBackend MicrosoftTranslator (lit "auto") (lit "en"))
  /\ backend_calls
       (translate_text accept_all echo (mkTranslator 1500)
          (lit "Hello") (lit "en") (lit "auto") (lit "microsoft") 0%nat)
     = [mkCall None (mkBackend GoogleTranslator (lit "auto") (lit "en")) (lit "Hello")].
Proof.
  split; [|split; reflexivity].
  intros. apply translate_text_calls_google.
Qed.

(** ** How large a chunk can get *)

Lemma pieces_bounded m n s :
  Forall (fun x => (length x <= m)%nat) (pieces m n s).
Proof.
  unfold pieces. apply Forall_forall. intros x Hx.
  apply in_map_iff in Hx as (k & <- & _). rewrite length_firstn. lia.
Qed.

Lemma sentence_step_sized self p s st st' :
  0 < max_chunk_size self ->
  sentence_sized self st ->
  sentence_step self p s st = Ok st' ->
  sentence_sized self st'.
Proof.
  intros Hpos (HF & Hsz & Hle) Hs. unfold sentence_step in Hs.
  destruct (Z.gtb_spec (len s) (max_chunk_size self)).
  - rewrite hard_cut_pieces in Hs by exact Hpos. injection Hs as <-.
    split; [|split; assumption]. cbn [chunks].
    apply Forall_app. split; [exact HF|].
    apply Forall_forall. intros oc Hin.
    apply in_map_iff in Hin as (x & <- & Hx).
    pose proof (proj1 (Forall_forall _ _) (pieces_bounded _ _ _) x Hx) as Hb.
    cbv beta in Hb. unfold within_bound, len. cbn [fst snd]. lia.
  - destruct (Z.gtb_spec (current_size st + len s) (max_chunk_size self));
      injection Hs as <-; unfold sentence_sized;
      cbn [chunks current_chunk current_size].
    + split; [|split].
      * destruct (truthy (current_chunk st)); [|exact HF].
        apply Forall_app. split; [exact HF|].
        constructor; [|constructor]. unfold within_bound. cbn [fst snd].
        now rewrite join_empty_sep.
      * cbn [concat]. now rewrite app_nil_r.
      * cbn [concat]. rewrite app_nil_r. lia.
    + split; [exact HF|].
      rewrite concat_app, len_app. cbn [concat]. rewrite app_nil_r. lia.
Qed.

Lemma sentence_loop_sized self p ss : forall st st',
  0 < max_chunk_size self ->
  sentence_sized self st ->
  sentence_loop self p ss st = Ok st' ->
  sentence_sized self st'.
Proof.
  induction ss as [|s ss IH]; intros st st' Hpos Hinv Hl; cbn [sentence_loop] in Hl.
  - now injection Hl as <-.
  - destruct (sentence_step self p s st) as [st1|e] eqn:Es; [|discriminate].
    cbn [bind] in Hl.
    eapply IH; [exact Hpos| |exact Hl].
    eapply sentence_step_sized; eauto.
Qed.

Lemma para_step_sized self p q st st' :
  0 < max_chunk_size self ->
  para_sized self st ->
  para_step self p q st = Ok st' ->
  para_sized self st'.
Proof.
  intros Hpos (HF & Hz & Hj) Hs. unfold para_step in Hs.
  pose proof (len_nonneg q) as Hq0.
  destruct (Z.gtb_spec (len q) (max_chunk_size self)).
  - destruct (sentence_loop self p (re_split q) (flush Paragraphs PARA_SEP st))
      as [st2|e] eqn:El; [|discriminate].
    cbn [bind] in Hs. injection Hs as <-.
    apply sentence_loop_sized in El; [|exact Hpos|].
    + destruct El as (HF2 & Hsz2 & Hle2). unfold flush.
      destruct (current_chunk st2) as [|x cur2] eqn:E2; cbn [truthy].
      * split; [exact HF2|]. split; [|congruence].
        intros _. rewrite Hsz2. reflexivity.
      * split; [|split; [reflexivity|cbn [current_chunk]; congruence]].
        cbn [chunks]. apply Forall_app. split; [exact HF2|].
        constructor; [|constructor]. unfold within_bound. cbn [fst snd].
        rewrite join_empty_sep. exact Hle2.
    + unfold flush. destruct (current_chunk st) as [|x cur] eqn:E; cbn [truthy].
      * split; [exact HF|]. rewrite E. cbn [concat]. rewrite (Hz eq_refl).
        split; [reflexivity|]. cbn. lia.
      * split; [|cbn; lia].
        cbn [chunks]. apply Forall_app. split; [exact HF|].
        constructor; [|constructor]. unfold within_bound. cbn [fst snd].
        apply Hj. discriminate.
  - destruct (Z.gtb_spec (current_size st + len q) (max_chunk_size self));
      injection Hs as <-; unfold para_sized;
      cbn [chunks current_chunk current_size].
    + split; [|split; [discriminate|]].
      * apply Forall_app. split; [exact HF|].
        constructor; [|constructor]. unfold within_bound. cbn [fst snd].
        destruct (current_chunk st) as [|x cur] eqn:E; [cbn; lia|].
        apply Hj. discriminate.
      * intros _. cbn [join]. lia.
    + split; [exact HF|]. split.
      * destruct (current_chunk st); discriminate.
      * intros _. destruct (current_chunk st) as [|x cur] eqn:E.
        -- cbn [app join]. rewrite (Hz eq_refl) in *. lia.
        -- rewrite join_snoc by discriminate. rewrite !len_app.
           change (len PARA_SEP) with 2.
           destruct Hj as [Hj1 Hj2]; [discriminate|]. lia.
Qed.

Lemma para_loop_sized self ps : forall p st st',
  0 < max_chunk_size self ->
  para_sized self st ->
  para_loop self p ps st = Ok st' ->
  para_sized self st'.
Proof.
  induction ps as [|q ps IH]; intros p st st' Hpos Hinv Hl; cbn [para_loop] in Hl.
  - now injection Hl as <-.
  - destruct (para_step self p q st) as [st1|e] eqn:Es; [|discriminate].
    cbn [bind] in Hl.
    eapply IH; [exact Hpos| |exact Hl].
    eapply para_step_sized; eauto.
Qed.

(** What does hold of the sizes: no sentence-level chunk and no hard-cut
    slice is longer than [max_chunk_size], and no paragraph-level chunk is
    longer than [max_chunk_size + 2]. *)
Lemma chunk_size_bounds self text cs :
  0 < max_chunk_size self ->
  smart_chunk_trace self text = Ok cs ->
  Forall (within_bound self) cs.
Proof.
  intros Hpos Hc. unfold smart_chunk_trace in Hc.
  destruct (para_loop self 0 (split_nn text) chunker_init) as [st|e] eqn:El;
    [|discriminate].
  cbn [bind] in Hc. injection Hc as <-.
  apply para_loop_sized in El; [|exact Hpos|].
  - destruct El as (HF & _ & Hj). unfold flush.
    destruct (current_chunk st) as [|x cur] eqn:E; cbn [truthy]; [exact HF|].
    cbn [chunks]. apply Forall_app. split; [exact HF|].
    constructor; [|constructor]. unfold within_bound. cbn [fst snd].
    apply Hj. discriminate.
  - split; [constructor|]. split; [reflexivity|]. cbn. congruence.
Qed.

(** ** Counterexamples to the claims as first stated *)

(** C2 as stated fails: with [max_chunk_size = 3] the text "a. b" comes back
    as the single sentence-level chunk "a.b"; the space is lost, so no way
    of rejoining gives the text back. *)
Lemma rejoin_loses_whitespace :
  exists cs,
    smart_chunk_trace (mkTranslator 3) (lit "a. b") = Ok cs
    /\ map snd cs = [lit "a.b"]
    /\ rejoin cs <> lit "a. b".
Proof.
  eexists. split; [reflexivity|]. split; [reflexivity|]. discriminate.
Qed.

(** C3 as stated fails: on the short text "Hello" the one backend call is
    not guarded, and with a backend whose every call fails [translate_text]
    raises that call's exception. *)
Lemma short_text_failure_propagates :
  (forall tr c w, exists e w', always_fails tr c w = (Raise e, w'))
  /\ returned (translate_text accept_all always_fails (mkTranslator 1500)
                 (lit "Hello") (lit "en") (lit "auto") (lit "google") 0%nat)
     = Raise (BackendError 0)
  /\ ~ (exists s,
          returned (translate_text accept_all always_fails (mkTranslator 1500)
                      (lit "Hello") (lit "en") (lit "auto") (lit "google") 0%nat)
          = Ok s).
Proof.
  split; [|split].
  - intros tr c w. unfold always_fails. eauto.
  - reflexivity.
  - intros [s H]. discriminate.
Qed.

(** C5 as stated fails: on the empty string [smart_chunk_text] returns one
    chunk, the empty string, not the empty sequence. *)
Lemma empty_text_gives_one_chunk :
  smart_chunk_text (mkTranslator 1500) [] = Ok [[]]
  /\ smart_chunk_text (mkTranslator 1500) [] <> Ok [].
Proof. split; [reflexivity|discriminate]. Qed.

(** C6 as stated fails: a text of four blanks is longer than
    [max_chunk_size = 3] and the chunker cuts it into two chunks, but
    [translate_text] returns the empty string without a backend call, which
    is not two results joined by the paragraph delimiter. *)
Lemma blank_long_text_is_not_chunked :
  len (lit "    ") > 3
  /\ smart_chunk_text (mkTranslator 3) (lit "    ") = Ok [lit "   "; lit " "]
  /\ translate_text accept_all echo (mkTranslator 3)
       (lit "    ") (lit "en") (lit "auto") (lit "google") 0%nat
     = mkOutcome (Ok []) 0%nat []
  /\ (forall r1 r2, join PARA_SEP [r1; r2] <> []).
Proof.
  split; [reflexivity|]. split; [reflexivity|]. split; [reflexivity|].
  intros r1 r2. cbn [join]. destruct r1; discriminate.
Qed.

(** ** The theorems at concrete inputs *)

Lemma translate_text_blank_or_short_witness :
  (forallb isspace (lit "  ") = true
   /\ translate_text accept_all echo (mkTranslator 1500)
        (lit "  ") (lit "en") (lit "auto") (lit "google") 0%nat
      = mkOutcome (Ok []) 0%nat [])
  /\
  (forallb isspace (lit "Hello") = false
   /\ len (lit "Hello") <= 1500
   /\ construct accept_all GoogleTranslator (lit "auto") (lit "en")
      = Ok (mkBackend GoogleTranslator (lit "auto") (lit "en"))
   /\ translate_text accept_all echo (mkTranslator 1500)
        (lit "Hello") (lit "en") (lit "auto") (lit "google") 0%nat
      = mkOutcome (Ok (lit "Hello")) 1%nat
          [mkCall None (mkBackend GoogleTranslator (lit "auto") (lit "en"))
             (lit "Hello")]).
Proof.
  split.
  - split; [reflexivity|].
    apply (proj1 (translate_text_blank_or_short accept_all echo (mkTranslator 1500)
                    (lit "  ") (lit "en") (lit "auto") (lit "google") 0%nat)).
    reflexivity.
  - split; [reflexivity|]. split; [vm_compute; discriminate|].
    split; [reflexivity|].
    apply (proj2 (translate_text_blank_or_short accept_all echo (mkTranslator 1500)
                    (lit "Hello") (lit "en") (lit "auto") (lit "google") 0%nat)).
    + reflexivity.
    + vm_compute; discriminate.
    + reflexivity.
Defined.

Lemma translate_text_long_never_raises_from_backend_witness :
  len (lit "aa bb cc") > 3
  /\ (forall i,
        (length (calls_for i
                   (backend_calls
                      (translate_text accept_all always_fails (mkTranslator 3)
                         (lit "aa bb cc") (lit "en") (lit "auto") (lit "google") 0%nat)))
         <= 3)%nat)
  /\ exists cs,
       smart_chunk_text (mkTranslator 3) (lit "aa bb cc") = Ok cs
       /\ translated_chunks
            (chunk_loop always_fails (mkBackend GoogleTranslator (lit "auto") (lit "en"))
               0 cs (mkPipeline [] 0%nat []))
          = repeat SENTINEL (length cs)
       /\ returned (translate_text accept_all always_fails (mkTranslator 3)
                      (lit "aa bb cc") (lit "en") (lit "auto") (lit "google") 0%nat)
          = Ok (join PARA_SEP (repeat SENTINEL (length cs))).
Proof.
  assert (Hlong : len (lit "aa bb cc") > 3) by reflexivity.
  split; [exact Hlong|].
  destruct (proj1 (translate_text_long_never_raises_from_backend accept_all
                     always_fails (mkTranslator 3) (lit "aa bb cc") (lit "en")
                     (lit "auto") (lit "google") 0%nat) Hlong)
    as (_ & Hcalls & Hsent).
  split; [exact Hcalls|].
  apply Hsent.
  - reflexivity.
  - reflexivity.
  - reflexivity.
  - intros c w0. unfold always_fails. eauto.
Defined.

Lemma translate_text_results_follow_chunks_witness :
  forallb isspace (lit "aa bb cc") = false
  /\ len (lit "aa bb cc") > 3
  /\ 0 < 3
  /\ exists cs results,
       smart_chunk_text (mkTranslator 3) (lit "aa bb cc") = Ok cs
       /\ results
          = translated_chunks
              (chunk_loop flaky (mkBackend GoogleTranslator (lit "auto") (lit "en"))
                 0 cs (mkPipeline [] 0%nat []))
       /\ length results = length cs
       /\ Forall2 (chunk_result flaky (mkBackend GoogleTranslator (lit "auto") (lit "en")))
            cs results
       /\ returned (translate_text accept_all flaky (mkTranslator 3)
                      (lit "aa bb cc") (lit "en") (lit "auto") (lit "google") 0%nat)
          = Ok (join PARA_SEP results).
Proof.
  split; [reflexivity|]. split; [reflexivity|]. split; [reflexivity|].
  apply (proj1 (translate_text_results_follow_chunks accept_all flaky
                  (mkTranslator 3) (lit "aa bb cc") (lit "en") (lit "auto")
                  (lit "google") 0%nat));
    reflexivity.
Defined.

Lemma translate_text_second_attempt_witness :
  let g := mkBackend GoogleTranslator (lit "auto") (lit "en") in
  let out := translate_text accept_all flaky (mkTranslator 3)
               (lit "aa bb cc") (lit "en") (lit "auto") (lit "google") 0%nat in
  smart_chunk_text (mkTranslator 3) (lit "aa bb cc")
  = Ok ([lit "aa "] ++ lit "bb " :: [lit "cc"])
  /\ flaky g (lit "bb ") 2%nat = (Raise (BackendError 0), 3%nat)
  /\ flaky g (lit "bb ") 3%nat = (Ok (lit "bb "), 4%nat)
  /\ calls_for 1 (backend_calls out)
     = [mkCall (Some 1%nat) g (lit "bb "); mkCall (Some 1%nat) g (lit "bb ")]
  /\ nth_error
       (translated_chunks
          (chunk_loop flaky g 0 ([lit "aa "] ++ lit "bb " :: [lit "cc"])
             (mkPipeline [] 0%nat [])))
       1
     = Some (lit "bb ").
Proof.
  intros g out.
  split; [reflexivity|]. split; [reflexivity|]. split; [reflexivity|].
  destruct (translate_text_second_attempt accept_all flaky (mkTranslator 3)
              (lit "aa bb cc") (lit "en") (lit "auto") (lit "google") 0%nat g
              [lit "aa "] (lit "bb ") [lit "cc"] (BackendError 0) (lit "bb ")
              3%nat 4%nat)
    as (Hcalls & _ & _ & Hnth); try reflexivity.
  split; [exact Hcalls|exact Hnth].
Defined.

Lemma smart_chunk_text_small_witness :
  0 < 1500
  /\ smart_chunk_text (mkTranslator 1500) [] = Ok [[]]
  /\ (len (lit "Hello world.") <= 1500
      /\ smart_chunk_text (mkTranslator 1500) (lit "Hello world.")
         = Ok [lit "Hello world."]).
Proof.
  assert (Hpos : 0 < max_chunk_size (mkTranslator 1500)) by reflexivity.
  split; [reflexivity|].
  destruct (smart_chunk_text_small (mkTranslator 1500) Hpos) as (Hempty & Hone & _).
  split; [exact Hempty|].
  split; [vm_compute; discriminate|].
  apply Hone. vm_compute; discriminate.
Defined.

Lemma oversized_sentence_is_hard_cut_witness :
  len (repeat 97%N 3000) = 3000
  /\ split_nn (repeat 97%N 3000) = [repeat 97%N 3000]
  /\ existsb is_terminator (repeat 97%N 3000) = false
  /\ exists a b,
       smart_chunk_text (mkTranslator 1500) (repeat 97%N 3000) = Ok [a; b]
       /\ len a = 1500 /\ len b = 1500 /\ a ++ b = repeat 97%N 3000.
Proof.
  split; [vm_compute; reflexivity|].
  split; [vm_compute; reflexivity|].
  split; [vm_compute; reflexivity|].
  apply (proj2 (proj2 oversized_sentence_is_hard_cut)); vm_compute; reflexivity.
Defined.

Lemma rejoining_the_chunks_witness :
  0 < 3
  /\ Forall (no_oversized_sentence (mkTranslator 3)) (split_nn (lit "a. b"))
  /\ exists cs,
       smart_chunk_trace (mkTranslator 3) (lit "a. b") = Ok cs
       /\ rejoin cs
          = join PARA_SEP (map (as_chunked (mkTranslator 3)) (split_nn (lit "a. b"))).
Proof.
  assert (Hpos : 0 < max_chunk_size (mkTranslator 3)) by reflexivity.
  assert (HF : Forall (no_oversized_sentence (mkTranslator 3)) (split_nn (lit "a. b"))).
  { constructor; [|constructor]. intros _.
    constructor; [vm_compute; discriminate|].
    constructor; [vm_compute; discriminate|constructor]. }
  split; [reflexivity|]. split; [exact HF|].
  apply (proj1 (rejoining_the_chunks (mkTranslator 3) (lit "a. b") Hpos)).
  exact HF.
Defined.

(** ** The document source and sink *)

Lemma fold_keep (f : str -> bool) (l : list str) : forall acc,
  fold_left (fun acc p => if f p then acc ++ [p] else acc) l acc
  = acc ++ filter f l.
Proof.
  induction l as [|p l IH]; intros acc; cbn [fold_left filter].
  - now rewrite app_nil_r.
  - rewrite IH. destruct (f p); [now rewrite <- app_assoc|reflexivity].
Qed.

Lemma extract_text_kept doc :
  extract_text_from_docx doc = join PARA_SEP (kept doc).
Proof. unfold extract_text_from_docx, kept. now rewrite fold_keep. Qed.



Lemma kept_nonblank doc : Forall (fun p => truthy (strip p) = true) (kept doc).
Proof.
  unfold kept. apply Forall_forall. intros p Hp.
  now apply filter_In in Hp.
Qed.

Lemma isspace_join_false x xs :
  forallb isspace x = false -> forallb isspace (join PARA_SEP (x :: xs)) = false.
Proof.
  intros Hx. destruct xs as [|y xs]; [exact Hx|].
  rewrite join_cons by discriminate. rewrite forallb_app, Hx. reflexivity.
Qed.

(** X15.  The extracted text is empty exactly when every paragraph of the
    document is blank, and an extracted text that is not empty is never
    blank (so it passes the [strip()] guards of the script and of
    [translate_text]). *)
Theorem extract_text_empty_iff_blank doc :
  (extract_text_from_docx doc = []
   <-> Forall (fun p => forallb isspace p = true) doc)
  /\ (extract_text_from_docx doc <> []
      -> forallb isspace (extract_text_from_docx doc) = false).
Proof.
  rewrite extract_text_kept.
  assert (Hk : kept doc = [] <-> Forall (fun p => forallb isspace p = true) doc).
  { unfold kept. induction doc as [|p doc IH]; cbn [filter].
    - split; auto.
    - rewrite strip_blank. destruct (forallb isspace p) eqn:E; cbn [negb].
      + rewrite IH. split; [now constructor|now inversion 1].
      + split; [discriminate|]. inversion 1; congruence. }
  assert (Hj : kept doc <> [] -> forallb isspace (join PARA_SEP (kept doc)) = false).
  { intros Hne. pose proof (kept_nonblank doc) as HF.
    destruct (kept doc) as [|x xs]; [congruence|].
    apply isspace_join_false. apply Forall_inv in HF.
    rewrite strip_blank in HF. now destruct (forallb isspace x). }
  split; [split|].
  - intros Hj0. apply Hk. destruct (kept doc) as [|x xs] eqn:E; [reflexivity|].
    assert (Hf : forallb isspace (join PARA_SEP (x :: xs)) = false)
      by (apply Hj; discriminate).
    rewrite Hj0 in Hf. discriminate.
  - intros HF. apply Hk in HF. now rewrite HF.
  - intros Hne. apply Hj. intros E. apply Hne. now rewrite E.
Qed.






(** ** Selecting a backend *)

Lemma str_eqb_eq a : forall b, str_eqb a b = true <-> a = b.
Proof.
  induction a as [|x a IH]; intros [|y b]; cbn [str_eqb];
    try (split; [discriminate|congruence]); [tauto|].
  rewrite andb_true_iff, N.eqb_eq, IH. split; [intros [-> ->]; reflexivity|].
  intros [= -> ->]. auto.
Qed.

(** X14.  [get_translator_instance] builds a [MicrosoftTranslator] exactly
    for the key "microsoft" and a [MyMemoryTranslator] exactly for the key
    "mymemory"; every other key, known or not, gives a [GoogleTranslator].
    The object carries the language pair it was asked for, and the only
    exception is the one the chosen constructor raises. *)
Theorem get_translator_instance_selects
    (init_error : engine -> str -> str -> option exn) self key sc tc :
  exists cls,
    get_translator_instance init_error self key sc tc
    = match init_error cls sc tc with
      | Some e => Raise e
      | None => Ok (mkBackend cls sc tc)
      end
    /\ (cls = MicrosoftTranslator <-> key = lit "microsoft")
    /\ (cls = MyMemoryTranslator <-> key = lit "mymemory")
    /\ (cls = GoogleTranslator
        <-> key <> lit "microsoft" /\ key <> lit "mymemory").
Proof.
  unfold get_translator_instance.
  destruct (str_eqb key (lit "google")) eqn:Eg;
    [|destruct (str_eqb key (lit "microsoft")) eqn:Em;
      [|destruct (str_eqb key (lit "mymemory")) eqn:Ey]].
  - apply str_eqb_eq in Eg. subst key. exists GoogleTranslator.
    split; [reflexivity|]. split; [|split]; split; intros H;
      try discriminate H; try reflexivity.
    + split; discriminate.
  - apply str_eqb_eq in Em. subst key. exists MicrosoftTranslator.
    split; [reflexivity|]. split; [|split]; split; intros H;
      try discriminate H; try reflexivity.
    destruct H as [H _]. congruence.
  - apply str_eqb_eq in Ey. subst key. exists MyMemoryTranslator.
    split; [reflexivity|]. split; [|split]; split; intros H;
      try discriminate H; try reflexivity.
    destruct H as [_ H]. congruence.
  - exists GoogleTranslator. split; [reflexivity|].
    assert (Hm : key <> lit "microsoft")
      by (intros ->; now rewrite (proj2 (str_eqb_eq _ _) eq_refl) in Em).
    assert (Hy : key <> lit "mymemory")
      by (intros ->; now rewrite (proj2 (str_eqb_eq _ _) eq_refl) in Ey).
    split; [|split]; split; intros H;
      try discriminate H; try congruence; auto.
Qed.

(** ** The calls of a run, in order *)

Section CallsOfARun.

Context {World : Type}.
Variable init_error : engine -> str -> str -> option exn.
Variable backend_translate : translator -> str -> World -> result str * World.

Local Abbreviation run_retry := (retry_loop backend_translate).
Local Abbreviation run_loop := (chunk_loop backend_translate).

Lemma chunk_loop_follows tr cs : forall i st,
  exists results w log,
    run_loop tr i cs st
    = mkPipeline (translated_chunks st ++ results) w (calls st ++ log)
    /\ calls_follow tr i cs log.
Proof.
  induction cs as [|c cs IH]; intros i st.
  - exists [], (world st), []. cbn [chunk_loop calls_follow]. rewrite !app_nil_r.
    now destruct st.
  - cbn [chunk_loop].
    destruct (retry_loop_spec backend_translate tr i c max_retries st)
      as (r & w & k & Hr & Hk & _); [unfold max_retries; lia|].
    rewrite Hr.
    destruct (IH (S i) (mkPipeline (translated_chunks st ++ [r]) w
                          (calls st ++ repeat (mkCall (Some i) tr c) k)))
      as (rs & w' & log & Hl & Hf).
    rewrite Hl. cbn [translated_chunks calls].
    exists (r :: rs), w', (repeat (mkCall (Some i) tr c) k ++ log).
    rewrite <- !app_assoc. split; [reflexivity|].
    cbn [calls_follow]. exists k, log. unfold max_retries in Hk. auto.
Qed.

Lemma calls_follow_length tr cs : forall i log,
  calls_follow tr i cs log ->
  (length cs <= length log <= 3 * length cs)%nat.
Proof.
  induction cs as [|c cs IH]; intros i log H; cbn [calls_follow] in H.
  - subst log. cbn. lia.
  - destruct H as (k & tail & Hk & -> & Hf). apply IH in Hf.
    rewrite length_app, repeat_length. cbn [length]. lia.
Qed.

(** X10.  In a run on a text that is not blank and longer than
    [max_chunk_size], the backend calls are the chunks in the order of the
    chunker: each chunk is submitted one to three times in a row, to the one
    [GoogleTranslator] object of the run, and no earlier chunk is submitted
    again. *)
Theorem translate_text_calls_in_chunk_order self text tc sc tt w cs tr :
  forallb isspace text = false ->
  len text > max_chunk_size self ->
  smart_chunk_text self text = Ok cs ->
  construct init_error GoogleTranslator sc tc = Ok tr ->
  calls_follow tr 0 cs
    (backend_calls
       (translate_text init_error backend_translate self text tc sc tt w)).
Proof.
  intros Hb Hl Hc Ht.
  rewrite (translate_text_long init_error backend_translate
             self text tc sc tt w cs tr Hb Hl Hc Ht).
  destruct (chunk_loop_follows tr cs 0%nat (mkPipeline [] w []))
    as (rs & w' & log & Hloop & Hf).
  cbn zeta. rewrite Hloop. exact Hf.
Qed.

(** X9.  Such a run makes at least one and at most three backend calls per
    chunk: between [n] and [3 n] calls for [n] chunks. *)
Theorem translate_text_call_count self text tc sc tt w cs tr :
  forallb isspace text = false ->
  len text > max_chunk_size self ->
  smart_chunk_text self text = Ok cs ->
  construct init_error GoogleTranslator sc tc = Ok tr ->
  let n := length
             (backend_calls
                (translate_text init_error backend_translate self text tc sc tt w)) in
  (length cs <= n <= 3 * length cs)%nat.
Proof.
  intros Hb Hl Hc Ht.
  rewrite (translate_text_long init_error backend_translate
             self text tc sc tt w cs tr Hb Hl Hc Ht).
  destruct (chunk_loop_follows tr cs 0%nat (mkPipeline [] w []))
    as (rs & w' & log & Hloop & Hf).
  cbn zeta. rewrite Hloop. cbn [backend_calls calls app].
  eapply calls_follow_length; eauto.
Qed.

Lemma chunk_loop_never_fails tr (f : str -> str) cs : forall i st,
  (forall c w0, exists w1, backend_translate tr c w0 = (Ok (f c), w1)) ->
  exists w,
    run_loop tr i cs st
    = mkPipeline (translated_chunks st ++ map f cs) w
        (calls st ++
         map (fun ic => mkCall (Some (fst ic)) tr (snd ic))
           (combine (seq i (length cs)) cs)).
Proof.
  induction cs as [|c cs IH]; intros i st Hf.
  - exists (world st). cbn. rewrite !app_nil_r. now destruct st.
  - cbn [chunk_loop]. unfold max_retries. cbn [retry_loop].
    destruct (Hf c (world st)) as [w1 ->].
    destruct (IH (S i) (mkPipeline (translated_chunks st ++ [f c]) w1
                          (calls st ++ [mkCall (Some i) tr c])) Hf) as [w' ->].
    exists w'. cbn [translated_chunks calls length seq combine map fst snd].
    now rewrite <- !app_assoc.
Qed.

(** X11.  With a backend that never fails and answers [f chunk], a run on
    a long text makes exactly one call per chunk, in order, and returns the
    answers joined by the paragraph delimiter. *)
Theorem translate_text_with_reliable_backend self text tc sc tt w cs tr
    (f : str -> str) :
  forallb isspace text = false ->
  len text > max_chunk_size self ->
  smart_chunk_text self text = Ok cs ->
  construct init_error GoogleTranslator sc tc = Ok tr ->
  (forall c w0, exists w1, backend_translate tr c w0 = (Ok (f c), w1)) ->
  let out := translate_text init_error backend_translate self text tc sc tt w in
  returned out = Ok (join PARA_SEP (map f cs))
  /\ backend_calls out
     = map (fun ic => mkCall (Some (fst ic)) tr (snd ic))
         (combine (seq 0 (length cs)) cs).
Proof.
  intros Hb Hl Hc Ht Hf.
  rewrite (translate_text_long init_error backend_translate
             self text tc sc tt w cs tr Hb Hl Hc Ht).
  destruct (chunk_loop_never_fails tr f cs 0%nat (mkPipeline [] w []) Hf)
    as [w' Hloop].
  cbn zeta. rewrite Hloop. split; reflexivity.
Qed.

(** X12.  With a backend that gives every text back unchanged,
    [translate_text] returns its input unchanged for every text that is not
    blank and has no paragraph longer than [max_chunk_size], whatever the
    length of the text. *)
Theorem translate_text_with_identity_backend self text tc sc tt w tr :
  forallb isspace text = false ->
  Forall (fun q => len q <= max_chunk_size self) (split_nn text) ->
  construct init_error GoogleTranslator sc tc = Ok tr ->
  (forall c w0, exists w1, backend_translate tr c w0 = (Ok c, w1)) ->
  returned (translate_text init_error backend_translate self text tc sc tt w)
  = Ok text.
Proof.
  intros Hb HF Ht Hid.
  destruct (Z.leb_spec (len text) (max_chunk_size self)) as [Hs|Hl].
  - rewrite (proj2 (blank_or_short_run init_error backend_translate
                      self text tc sc tt w) Hb Hs tr Ht).
    destruct (Hid text w) as [w1 ->]. reflexivity.
  - destruct (join_smart_chunk_text_fitting self text HF) as (cs & Hc & Hj).
    rewrite (translate_text_long init_error backend_translate
               self text tc sc tt w cs tr Hb ltac:(lia) Hc Ht).
    destruct (chunk_loop_never_fails tr (fun c => c) cs 0%nat
                (mkPipeline [] w []) Hid) as [w' Hloop].
    cbn zeta. rewrite Hloop. cbn [returned translated_chunks app].
    now rewrite map_id, Hj.
Qed.

(** What one chunk contributes, given what its retry loop does. *)
Lemma chunk_contribution self text tc sc tt w tr pre c post r k w' :
  forallb isspace text = false ->
  len text > max_chunk_size self ->
  construct init_error GoogleTranslator sc tc = Ok tr ->
  smart_chunk_text self text = Ok (pre ++ c :: post) ->
  let i := length pre in
  let before := run_loop tr 0 pre (mkPipeline [] w []) in
  run_retry tr i c max_retries before
  = mkPipeline (translated_chunks before ++ [r]) w'
      (calls before ++ repeat (mkCall (Some i) tr c) k) ->
  calls_for i
    (backend_calls
       (translate_text init_error backend_translate self text tc sc tt w))
  = repeat (mkCall (Some i) tr c) k
  /\ nth_error
       (translated_chunks (run_loop tr 0 (pre ++ c :: post) (mkPipeline [] w [])))
       i
     = Some r.
Proof.
  intros Hb Hl Ht Hc i before Hretry.
  rewrite (translate_text_long init_error backend_translate
             self text tc sc tt w _ tr Hb Hl Hc Ht).
  cbn zeta. cbn [backend_calls].
  rewrite chunk_loop_app. cbn [chunk_loop Nat.add]. fold before. fold i.
  rewrite Hretry.
  destruct (chunk_loop_spec backend_translate tr pre 0%nat (mkPipeline [] w []))
    as (rs1 & wa & log1 & Hpre & HF1 & _ & HFi1 & _).
  fold before in Hpre. cbn [translated_chunks calls app] in Hpre.
  rewrite Hpre. cbn [translated_chunks calls].
  match goal with |- context [run_loop tr (S i) post ?st] =>
    destruct (chunk_loop_spec backend_translate tr post (S i) st)
      as (rs2 & wb & log2 & Hpost & HF2 & _ & HFi2 & _) end.
  rewrite Hpost. cbn [translated_chunks calls].
  pose proof (Forall2_length HF1) as Hlen1.
  split.
  - rewrite !calls_for_app.
    rewrite (calls_for_outside i 0 (0 + length pre) log1 HFi1) by (subst i; lia).
    rewrite (calls_for_outside i (S i) (S i + length post) log2 HFi2) by lia.
    rewrite app_nil_r. cbn [app]. rewrite calls_for_repeat.
    now rewrite Nat.eqb_refl.
  - rewrite <- app_assoc. rewrite nth_error_app2 by (subst i; lia).
    replace (i - length rs1)%nat with 0%nat by (subst i; lia). reflexivity.
Qed.

(** X13.  The attempts on one chunk of a run: when the first call
    succeeds, the chunk gets exactly one call and contributes the answer;
    when two calls fail and the third succeeds, it gets exactly three calls
    and contributes the answer; when three calls fail, it gets exactly three
    calls and contributes the sentinel, a fourth call never being made. *)
Theorem translate_text_attempts self text tc sc tt w tr pre c post :
  forallb isspace text = false ->
  len text > max_chunk_size self ->
  construct init_error GoogleTranslator sc tc = Ok tr ->
  smart_chunk_text self text = Ok (pre ++ c :: post) ->
  let i := length pre in
  let before := run_loop tr 0 pre (mkPipeline [] w []) in
  let out := translate_text init_error backend_translate self text tc sc tt w in
  let results :=
    translated_chunks (run_loop tr 0 (pre ++ c :: post) (mkPipeline [] w [])) in
  let call := mkCall (Some i) tr c in
  (forall s w1,
     backend_translate tr c (world before) = (Ok s, w1) ->
     calls_for i (backend_calls out) = [call]
     /\ nth_error results i = Some s)
  /\ (forall e1 e2 s w1 w2 w3,
        backend_translate tr c (world before) = (Raise e1, w1) ->
        backend_translate tr c w1 = (Raise e2, w2) ->
        backend_translate tr c w2 = (Ok s, w3) ->
        calls_for i (backend_calls out) = [call; call; call]
        /\ nth_error results i = Some s)
  /\ (forall e1 e2 e3 w1 w2 w3,
        backend_translate tr c (world before) = (Raise e1, w1) ->
        backend_translate tr c w1 = (Raise e2, w2) ->
        backend_translate tr c w2 = (Raise e3, w3) ->
        calls_for i (backend_calls out) = [call; call; call]
        /\ nth_error results i = Some SENTINEL).
Proof.
  intros Hb Hl Ht Hc i before out results call.
  split; [|split].
  - intros s w1 H1.
    apply (chunk_contribution self text tc sc tt w tr pre c post s 1 w1 Hb Hl Ht Hc).
    fold i before. unfold max_retries. cbn [retry_loop]. now rewrite H1.
  - intros e1 e2 s w1 w2 w3 H1 H2 H3.
    apply (chunk_contribution self text tc sc tt w tr pre c post s 3 w3 Hb Hl Ht Hc).
    fold i before. unfold max_retries. cbn [retry_loop]. rewrite H1.
    cbn [world calls translated_chunks Nat.ltb Nat.leb]. rewrite H2.
    cbn [world calls translated_chunks Nat.ltb Nat.leb]. rewrite H3.
    cbn [repeat]. now rewrite <- !app_assoc.
  - intros e1 e2 e3 w1 w2 w3 H1 H2 H3.
    apply (chunk_contribution self text tc sc tt w tr pre c post SENTINEL 3 w3
             Hb Hl Ht Hc).
    fold i before. unfold max_retries. cbn [retry_loop]. rewrite H1.
    cbn [world calls translated_chunks Nat.ltb Nat.leb]. rewrite H2.
    cbn [world calls translated_chunks Nat.ltb Nat.leb]. rewrite H3.
    cbn [world calls translated_chunks Nat.ltb Nat.leb repeat].
    now rewrite <- !app_assoc.
Qed.

End CallsOfARun.

(** ** Chunk sizes that are not positive *)

Lemma range_negative_step stop step :
  step < 0 -> 0 <= stop -> range 0 stop step = Ok [].
Proof.
  intros Hs Hstop. unfold range.
  destruct (Z.eqb_spec step 0); [lia|].
  destruct (Z.gtb_spec step 0); [lia|].
  assert (Hq : (0 - stop - step - 1) / - step < 1)
    by (apply Z.div_lt_upper_bound; lia).
  replace (Z.to_nat ((0 - stop - step - 1) / - step)) with 0%nat by lia.
  reflexivity.
Qed.

Lemma sentence_loop_negative self p ss : forall st,
  max_chunk_size self < 0 -> sentence_loop self p ss st = Ok st.
Proof.
  induction ss as [|s ss IH]; intros st Hneg; [reflexivity|].
  cbn [sentence_loop]. unfold sentence_step.
  pose proof (len_nonneg s).
  destruct (Z.gtb_spec (len s) (max_chunk_size self)); [|lia].
  unfold hard_cut. rewrite range_negative_step by lia.
  cbn [bind fold_left]. now apply IH.
Qed.

Lemma para_loop_negative self ps : forall p st,
  max_chunk_size self < 0 -> current_chunk st = [] ->
  para_loop self p ps st = Ok st.
Proof.
  induction ps as [|q ps IH]; intros p st Hneg Hcur; [reflexivity|].
  cbn [para_loop]. unfold para_step.
  pose proof (len_nonneg q).
  destruct (Z.gtb_spec (len q) (max_chunk_size self)); [|lia].
  assert (Hf : forall o glue, flush o glue st = st)
    by (intros; unfold flush; now rewrite Hcur).
  rewrite Hf, sentence_loop_negative by exact Hneg.
  cbn [bind]. rewrite Hf. now apply IH.
Qed.

(** X4.  With a negative [max_chunk_size] the chunker returns no chunk at
    all, whatever the text: every paragraph and every sentence counts as
    over-long and the hard cut runs over an empty range. *)
Theorem smart_chunk_text_negative_size self text :
  max_chunk_size self < 0 -> smart_chunk_text self text = Ok [].
Proof.
  intros Hneg. unfold smart_chunk_text, smart_chunk_trace.
  rewrite para_loop_negative by (auto; reflexivity).
  reflexivity.
Qed.

Lemma re_split_first_nonempty q :
  q <> [] -> exists s rest, re_split q = s :: rest /\ s <> [].
Proof.
  destruct q as [|c q]; [congruence|]. intros _.
  unfold re_split. cbn [re_split_aux andb].
  destruct (is_terminator c).
  - eexists _, _. split; [reflexivity|discriminate].
  - destruct (re_split_aux false q) as [|h t]; cbn [cons_head];
      eexists _, _; (split; [reflexivity|discriminate]).
Qed.

Lemma para_step_zero self p q st :
  max_chunk_size self = 0 ->
  (q <> [] -> para_step self p q st = Raise ValueError)
  /\ (q = [] -> exists st', para_step self p q st = Ok st').
Proof.
  intros Hz. split.
  - intros Hq. unfold para_step.
    assert (0 < len q) by (destruct q; [congruence|unfold len; cbn [length]; lia]).
    destruct (Z.gtb_spec (len q) (max_chunk_size self)); [|lia].
    destruct (re_split_first_nonempty q Hq) as (s & rest & -> & Hs).
    cbn [sentence_loop]. unfold sentence_step.
    assert (0 < len s) by (destruct s; [congruence|unfold len; cbn [length]; lia]).
    destruct (Z.gtb_spec (len s) (max_chunk_size self)); [|lia].
    unfold hard_cut, range. rewrite Hz. reflexivity.
  - intros ->. unfold para_step. rewrite Hz. change (len []) with 0.
    cbn [Z.gtb Z.compare].
    destruct (current_size st + 0 >? 0); eauto.
Qed.

Lemma para_loop_zero self ps : forall p st,
  max_chunk_size self = 0 ->
  (existsb truthy ps = true -> para_loop self p ps st = Raise ValueError)
  /\ (existsb truthy ps = false -> exists st', para_loop self p ps st = Ok st').
Proof.
  induction ps as [|q ps IH]; intros p st Hz.
  - split; [discriminate|]. cbn. eauto.
  - destruct (para_step_zero self p q st Hz) as [Hraise Hok].
    cbn [para_loop existsb]. destruct q as [|c q].
    + destruct (Hok eq_refl) as [st' ->]. cbn [bind truthy orb].
      apply IH. exact Hz.
    + rewrite Hraise by discriminate. cbn [bind truthy orb].
      split; [reflexivity|discriminate].
Qed.

(** X3.  The chunker raises exactly when [max_chunk_size] is zero and the
    text has a paragraph that is not empty; the exception is then the
    [ValueError] of [range] with a zero step. *)
Theorem smart_chunk_text_raises_iff self text :
  (forall e, smart_chunk_text self text = Raise e -> e = ValueError)
  /\ (smart_chunk_text self text = Raise ValueError
      <-> max_chunk_size self = 0 /\ existsb truthy (split_nn text) = true).
Proof.
  destruct (Z.lt_trichotomy (max_chunk_size self) 0) as [Hneg|[Hz|Hpos]].
  - unfold smart_chunk_text, smart_chunk_trace.
    rewrite para_loop_negative by (auto; reflexivity). cbn [bind].
    split; [discriminate|]. split; [discriminate|lia].
  - unfold smart_chunk_text, smart_chunk_trace.
    destruct (para_loop_zero self (split_nn text) 0%nat chunker_init Hz)
      as [Hraise Hok].
    destruct (existsb truthy (split_nn text)).
    + rewrite Hraise by reflexivity. cbn [bind].
      split; [now intros e [= <-]|tauto].
    + destruct (Hok eq_refl) as [st' ->]. cbn [bind].
      split; [discriminate|]. split; [discriminate|]. intros [_ H]. discriminate.
  - destruct (smart_chunk_text_ok self text Hpos) as [cs ->].
    split; [discriminate|]. split; [discriminate|lia].
Qed.

Lemma isspace_join_empty ps :
  Forall (fun q => q = []) ps -> forallb isspace (join PARA_SEP ps) = true.
Proof.
  induction 1 as [|q ps Hq _ IH]; [reflexivity|]. subst q.
  destruct ps as [|q' ps]; [reflexivity|].
  rewrite join_cons by discriminate. cbn [app].
  rewrite forallb_app, IH. reflexivity.
Qed.

Lemma nonblank_has_paragraph text :
  forallb isspace text = false -> existsb truthy (split_nn text) = true.
Proof.
  intros Hb. destruct (existsb truthy (split_nn text)) eqn:E; [reflexivity|].
  rewrite <- (join_split_nn text), isspace_join_empty in Hb; [discriminate|].
  apply Forall_forall. intros q Hq.
  destruct q as [|c q]; [reflexivity|].
  assert (existsb truthy (split_nn text) = true)
    by (apply existsb_exists; exists (c :: q); auto).
  congruence.
Qed.

(** X5.  [translate_text] with a chunk size that is not positive, on a
    text that is not blank: with [max_chunk_size = 0] it raises the
    [ValueError] of the chunker and makes no backend call; with a negative
    [max_chunk_size] it returns the empty string and makes no backend call,
    the whole text being dropped. *)
Theorem translate_text_nonpositive_size {World : Type}
    (init_error : engine -> str -> str -> option exn)
    (backend_translate : translator -> str -> World -> result str * World)
    self text tc sc tt w :
  forallb isspace text = false ->
  (max_chunk_size self = 0 ->
   translate_text init_error backend_translate self text tc sc tt w
   = mkOutcome (Raise ValueError) w [])
  /\ (max_chunk_size self < 0 ->
      forall tr, construct init_error GoogleTranslator sc tc = Ok tr ->
      translate_text init_error backend_translate self text tc sc tt w
      = mkOutcome (Ok []) w []).
Proof.
  intros Hb.
  assert (Hlen : 0 < len text).
  { destruct text; [discriminate|]. unfold len. cbn [length]. lia. }
  split.
  - intros Hz. unfold translate_text. rewrite strip_blank, Hb. cbn [negb].
    destruct (Z.leb_spec (len text) (max_chunk_size self)); [lia|].
    unfold smart_chunk_text, smart_chunk_trace.
    rewrite (proj1 (para_loop_zero self (split_nn text) 0%nat chunker_init Hz))
      by now apply nonblank_has_paragraph.
    reflexivity.
  - intros Hneg tr Ht. unfold translate_text. rewrite strip_blank, Hb. cbn [negb].
    destruct (Z.leb_spec (len text) (max_chunk_size self)); [lia|].
    unfold smart_chunk_text, smart_chunk_trace.
    rewrite para_loop_negative by (auto; reflexivity).
    cbn [bind chunks flush chunker_init current_chunk truthy map]. now rewrite Ht.
Qed.

(** ** The chunker always has output *)

Lemma flush_has_output o glue st : has_output st -> has_output (flush o glue st).
Proof.
  unfold flush, has_output. destruct (current_chunk st) as [|x cur] eqn:E; cbn [truthy].
  - rewrite E. auto.
  - intros _. left. cbn [chunks]. destruct (chunks st); discriminate.
Qed.

Lemma sentence_step_has_output self p s st st' :
  0 < max_chunk_size self ->
  sentence_step self p s st = Ok st' -> has_output st'.
Proof.
  intros Hpos Hs. unfold sentence_step in Hs.
  destruct (Z.gtb_spec (len s) (max_chunk_size self)) as [Hlong|Hfit].
  - rewrite hard_cut_pieces in Hs by exact Hpos. injection Hs as <-.
    left. cbn [chunks].
    destruct (ceil_div_bounds (len s) (max_chunk_size self) Hpos ltac:(lia))
      as (Hn & _).
    pose proof (pieces_length (Z.to_nat (max_chunk_size self))
                  (Z.to_nat ((len s + max_chunk_size self - 1) / max_chunk_size self))
                  s) as Hlen.
    destruct (pieces _ _ s); [cbn [length] in Hlen; lia|].
    cbn [map]. destruct (chunks st); discriminate.
  - destruct (current_size st + len s >? max_chunk_size self);
      injection Hs as <-; right; cbn [current_chunk]; [discriminate|].
    destruct (current_chunk st); discriminate.
Qed.

Lemma sentence_loop_has_output self p ss : forall st st',
  0 < max_chunk_size self ->
  sentence_loop self p ss st = Ok st' ->
  ss <> [] \/ has_output st -> has_output st'.
Proof.
  induction ss as [|s ss IH]; intros st st' Hpos Hl Hout; cbn [sentence_loop] in Hl.
  - injection Hl as <-. destruct Hout; [congruence|assumption].
  - destruct (sentence_step self p s st) as [st1|e] eqn:Es; [|discriminate].
    cbn [bind] in Hl. eapply IH; [exact Hpos|exact Hl|]. right.
    eapply sentence_step_has_output; eauto.
Qed.

Lemma para_step_has_output self p q st st' :
  0 < max_chunk_size self ->
  para_step self p q st = Ok st' -> has_output st'.
Proof.
  intros Hpos Hs. unfold para_step in Hs.
  destruct (len q >? max_chunk_size self).
  - destruct (sentence_loop self p (re_split q) (flush Paragraphs PARA_SEP st))
      as [st2|e] eqn:El; [|discriminate].
    cbn [bind] in Hs. injection Hs as <-. apply flush_has_output.
    eapply sentence_loop_has_output; [exact Hpos|exact El|].
    left. apply re_split_aux_nonempty.
  - destruct (current_size st + len q >? max_chunk_size self);
      injection Hs as <-; right; cbn [current_chunk]; [discriminate|].
    destruct (current_chunk st); discriminate.
Qed.

Lemma para_loop_has_output self ps : forall p st st',
  0 < max_chunk_size self ->
  para_loop self p ps st = Ok st' ->
  ps <> [] \/ has_output st -> has_output st'.
Proof.
  induction ps as [|q ps IH]; intros p st st' Hpos Hl Hout; cbn [para_loop] in Hl.
  - injection Hl as <-. destruct Hout; [congruence|assumption].
  - destruct (para_step self p q st) as [st1|e] eqn:Es; [|discriminate].
    cbn [bind] in Hl. eapply IH; [exact Hpos|exact Hl|]. right.
    eapply para_step_has_output; eauto.
Qed.

(** X2.  With a positive [max_chunk_size] the chunker never raises and
    never returns an empty list: every text, the empty one included, gives
    at least one chunk. *)
Theorem smart_chunk_text_at_least_one_chunk self text :
  0 < max_chunk_size self ->
  exists c cs, smart_chunk_text self text = Ok (c :: cs).
Proof.
  intros Hpos. unfold smart_chunk_text, smart_chunk_trace.
  destruct (para_loop_ok self (split_nn text) 0%nat chunker_init Hpos) as [st Hl].
  rewrite Hl. cbn [bind].
  assert (Hout : has_output (flush Paragraphs PARA_SEP st)).
  { apply flush_has_output.
    eapply para_loop_has_output; [exact Hpos|exact Hl|].
    left. apply split_nn_nonempty. }
  assert (Hcur : current_chunk (flush Paragraphs PARA_SEP st) = []).
  { unfold flush. destruct (current_chunk st) eqn:E; cbn [truthy]; auto. }
  destruct Hout as [Hc|Hc]; [|congruence].
  destruct (chunks (flush Paragraphs PARA_SEP st)) as [|[o c] cs]; [congruence|].
  exists c, (map snd cs). reflexivity.
Qed.

(** ** Nothing is lost in an over-long paragraph *)

Lemma sentence_loop_permutation self p ss : forall st,
  0 < max_chunk_size self ->
  exists st' new,
    sentence_loop self p ss st = Ok st'
    /\ chunks st' = chunks st ++ new
    /\ Forall (from_paragraph p) new
    /\ Permutation (concat (map snd new) ++ concat (current_chunk st'))
         (concat (current_chunk st) ++ concat ss).
Proof.
  induction ss as [|s ss IH]; intros st Hpos.
  - exists st, []. cbn [sentence_loop map concat app]. rewrite !app_nil_r.
    repeat split; auto.
  - cbn [sentence_loop concat]. unfold sentence_step.
    destruct (Z.gtb_spec (len s) (max_chunk_size self)) as [Hlong|Hfit].
    + destruct (sentence_step_hard_cut self p s st Hpos ltac:(lia))
        as (slices & Hs & Hcat & _).
      unfold sentence_step in Hs.
      destruct (Z.gtb_spec (len s) (max_chunk_size self)); [|lia].
      rewrite Hs. cbn [bind].
      destruct (IH (mkChunker (chunks st ++ map (pair (HardCut p)) slices)
                      (current_chunk st) (current_size st)) Hpos)
        as (st' & new & Hl & Hc & HF & Hperm).
      exists st', (map (pair (HardCut p)) slices ++ new).
      cbn [chunks current_chunk] in *. rewrite Hl, Hc, <- app_assoc.
      repeat split.
      * apply Forall_app. split; [|exact HF].
        apply Forall_forall. intros oc Hin.
        apply in_map_iff in Hin as (x & <- & _). reflexivity.
      * rewrite map_app, concat_app, map_map. cbn [snd]. rewrite map_id, Hcat.
        rewrite <- app_assoc.
        etransitivity; [apply Permutation_app_head; exact Hperm|].
        rewrite !app_assoc. apply Permutation_app_tail, Permutation_app_comm.
    + destruct (current_size st + len s >? max_chunk_size self); cbn [bind].
      * match goal with |- context [sentence_loop self p ss ?st1] =>
          destruct (IH st1 Hpos) as (st' & new & Hl & Hc & HF & Hperm) end.
        cbn [chunks current_chunk concat] in *. rewrite app_nil_r in Hperm.
        destruct (current_chunk st) as [|x cur] eqn:E; cbn [truthy] in *.
        -- exists st', new. rewrite Hl, Hc. repeat split; auto.
        -- exists st', ((Sentences p, join [] (x :: cur)) :: new).
           rewrite Hl, Hc, <- app_assoc. repeat split.
           ++ constructor; [reflexivity|exact HF].
           ++ cbn [map snd]. rewrite (concat_cons (join [] (x :: cur))).
              rewrite join_empty_sep, <- !app_assoc.
              now apply Permutation_app_head.
      * match goal with |- context [sentence_loop self p ss ?st1] =>
          destruct (IH st1 Hpos) as (st' & new & Hl & Hc & HF & Hperm) end.
        cbn [chunks current_chunk] in *.
        exists st', new. rewrite Hl, Hc. repeat split; auto.
        rewrite concat_app in Hperm. cbn [concat] in Hperm.
        rewrite app_nil_r, <- app_assoc in Hperm. exact Hperm.
Qed.

(** X6.  The chunks made of a paragraph longer than a positive
    [max_chunk_size] hold, together, exactly the characters of the
    paragraph without the whitespace after its sentence terminators: none
    is lost or doubled, hard cuts included; only their order may differ.
    The accumulator is empty afterwards. *)
Theorem oversized_paragraph_keeps_characters self p q st :
  0 < max_chunk_size self ->
  len q > max_chunk_size self ->
  exists st' new,
    para_step self p q st = Ok st'
    /\ chunks st' = chunks (flush Paragraphs PARA_SEP st) ++ new
    /\ Forall (from_paragraph p) new
    /\ Permutation (concat (map snd new)) (squeeze q)
    /\ current_chunk st' = [].
Proof.
  intros Hpos Hlong. unfold para_step.
  destruct (Z.gtb_spec (len q) (max_chunk_size self)); [|lia].
  set (st1 := flush Paragraphs PARA_SEP st).
  assert (Hcur1 : current_chunk st1 = []).
  { subst st1. unfold flush. destruct (current_chunk st) eqn:E; cbn [truthy]; auto. }
  destruct (sentence_loop_permutation self p (re_split q) st1 Hpos)
    as (st2 & new & Hl & Hc & HF & Hperm).
  rewrite Hl. cbn [bind]. rewrite Hcur1, concat_re_split in Hperm.
  cbn [concat app] in Hperm.
  unfold flush. destruct (current_chunk st2) as [|x cur2] eqn:E2; cbn [truthy].
  - exists st2, new. cbn [concat] in Hperm. rewrite app_nil_r in Hperm.
    repeat split; auto.
  - eexists _, (new ++ [(Sentences p, join [] (x :: cur2))]).
    split; [reflexivity|]. cbn [chunks current_chunk]. rewrite Hc, <- app_assoc.
    repeat split.
    + apply Forall_app. split; [exact HF|]. now repeat constructor.
    + rewrite map_app, concat_app. cbn [map snd concat].
      now rewrite app_nil_r, join_empty_sep.
Qed.

(** X7.  In a paragraph made of a sentence that fits followed by a sentence
    longer than [max_chunk_size], the hard-cut slices of the second
    sentence are emitted before the chunk that holds the first sentence. *)
Theorem hard_cut_overtakes_accumulated_sentence self p q s1 s2 st :
  0 < max_chunk_size self ->
  len q > max_chunk_size self ->
  re_split q = [s1; s2] ->
  len s1 <= max_chunk_size self ->
  len s2 > max_chunk_size self ->
  current_chunk st = [] ->
  current_size st = 0 ->
  exists slices,
    para_step self p q st
    = Ok (mkChunker
            (chunks st ++ map (pair (HardCut p)) slices ++ [(Sentences p, s1)])
            [] 0)
    /\ hard_cut_shape (max_chunk_size self) s2 slices.
Proof.
  intros Hpos Hq Hsplit H1 H2 Hcur Hsz. unfold para_step.
  destruct (Z.gtb_spec (len q) (max_chunk_size self)); [|lia].
  assert (Hf : flush Paragraphs PARA_SEP st = st)
    by (unfold flush; now rewrite Hcur).
  rewrite Hf, Hsplit. cbn [sentence_loop].
  unfold sentence_step at 1.
  destruct (Z.gtb_spec (len s1) (max_chunk_size self)); [lia|].
  rewrite Hsz, Hcur. cbn [Z.add].
  destruct (Z.gtb_spec (len s1) (max_chunk_size self)); [lia|].
  cbn [bind app].
  destruct (sentence_step_hard_cut self p s2 (mkChunker (chunks st) [s1] (len s1))
              Hpos H2) as (slices & Hs & Hshape).
  rewrite Hs. cbn [bind chunks current_chunk current_size].
  exists slices. split; [|exact Hshape].
  unfold flush. cbn [current_chunk truthy chunks join].
  now rewrite <- app_assoc.
Qed.

(** ** What sentence splitting does to a paragraph *)

Lemma squeeze_aux_keeps_nonspace s : forall skip,
  filter (fun c => negb (isspace c)) (squeeze_aux skip s)
  = filter (fun c => negb (isspace c)) s.
Proof.
  induction s as [|c s IH]; intros skip; [reflexivity|].
  cbn [squeeze_aux]. destruct (skip && isspace c)%bool eqn:E.
  - apply andb_prop in E as [_ E]. cbn [filter]. rewrite E. cbn [negb]. apply IH.
  - cbn [filter]. rewrite IH. reflexivity.
Qed.

Lemma squeeze_aux_length s : forall skip,
  (length (squeeze_aux skip s) <= length s)%nat.
Proof.
  induction s as [|c s IH]; intros skip; [cbn; lia|].
  cbn [squeeze_aux]. destruct (skip && isspace c)%bool; cbn [length].
  - specialize (IH true). lia.
  - specialize (IH (is_terminator c)). lia.
Qed.

(** X8.  Sentence splitting only ever drops whitespace: the sentences of
    a paragraph, concatenated, hold its characters that are not whitespace,
    all of them and in order, and are never longer than the paragraph; a
    paragraph in which no whitespace occurs comes back whole. *)
Theorem re_split_drops_only_whitespace s :
  filter (fun c => negb (isspace c)) (concat (re_split s))
  = filter (fun c => negb (isspace c)) s
  /\ len (concat (re_split s)) <= len s
  /\ (existsb isspace s = false -> concat (re_split s) = s).
Proof.
  rewrite concat_re_split. unfold squeeze. repeat split.
  - apply squeeze_aux_keeps_nonspace.
  - unfold len. pose proof (squeeze_aux_length s false). lia.
  - intros Hns. generalize false.
    induction s as [|c s IH]; intros skip; [reflexivity|].
    cbn [existsb] in Hns. apply orb_false_elim in Hns as [Hc Hs].
    cbn [squeeze_aux]. rewrite Hc, andb_false_r. now rewrite IH.
Qed.

Lemma re_split_aux_shape s : forall skip : bool,
  Forall (fun x => no_leading_space x = true)
    (if skip then re_split_aux skip s else tl (re_split_aux skip s))
  /\ Forall (fun x => ends_with_terminator x = true)
       (removelast (re_split_aux skip s)).
Proof.
  induction s as [|c s IH]; intros skip.
  - destruct skip; cbn; split; repeat constructor.
  - cbn [re_split_aux]. destruct (skip && isspace c)%bool eqn:E.
    + apply andb_prop in E as [-> _]. apply (IH true).
    + destruct (is_terminator c) eqn:Et.
      * destruct (IH true) as [Hl He]. split.
        -- destruct skip; cbn [tl]; [|exact Hl]. constructor; [|exact Hl].
           cbn [andb] in E. cbn. now rewrite E.
        -- pose proof (re_split_aux_nonempty s true) as Hne.
           destruct (re_split_aux true s) as [|h t] eqn:Er; [congruence|].
           change (removelast ([c] :: h :: t)) with ([c] :: removelast (h :: t)).
           constructor; [|exact He]. cbn. exact Et.
      * destruct (IH false) as [Hl He].
        pose proof (re_split_aux_nonempty s false) as Hne.
        destruct (re_split_aux false s) as [|h t] eqn:Er; [congruence|].
        cbn [cons_head tl] in *. split.
        -- destruct skip; [|exact Hl]. constructor; [|exact Hl].
           cbn [andb] in E. cbn. now rewrite E.
        -- destruct t as [|h' t]; [constructor|].
           change (removelast ((c :: h) :: h' :: t))
             with ((c :: h) :: removelast (h' :: t)).
           change (removelast (h :: h' :: t))
             with (h :: removelast (h' :: t)) in He.
           inversion He as [|? ? Hh He']; subst.
           constructor; [|exact He'].
           unfold ends_with_terminator in *. cbn [rev].
           destruct (rev h) as [|x r]; [discriminate|exact Hh].
Qed.

(** X18.  Every sentence of a paragraph but the last ends with a sentence
    terminator, and no sentence but the first starts with a whitespace
    character. *)
Theorem re_split_sentence_shape s :
  Forall (fun x => ends_with_terminator x = true) (removelast (re_split s))
  /\ Forall (fun x => no_leading_space x = true) (tl (re_split s)).
Proof.
  destruct (re_split_aux_shape s false) as [Hl He]. split; assumption.
Qed.

(** ** Runs of the script *)

Lemma load_upload_eq uploaded s :
  load_upload uploaded s
  = (upload_text uploaded, upload_id uploaded,
     if truthy (upload_text uploaded)
     then mkSession (translated_text s) (last_file_id s) (last_translator s)
            (upload_text uploaded)
     else s).
Proof.
  destruct uploaded as [f|]; [|reflexivity].
  unfold load_upload, upload_id, upload_text.
  destruct (document f) as [doc|e].
  - destruct (truthy (extract_text_from_docx doc)); reflexivity.
  - reflexivity.
Qed.

Lemma differs_refl a : differs a a = false.
Proof.
  destruct a as [x|]; [|reflexivity]. cbn [differs].
  now rewrite (proj2 (str_eqb_eq x x) eq_refl).
Qed.

Section ScriptFacts.

Context {World : Type}.
Variable init_error : engine -> str -> str -> option exn.
Variable backend_translate : translator -> str -> World -> result str * World.

Local Abbreviation run := (script_run init_error backend_translate).

(** In a settled session a run does nothing. *)
Lemma settled_run self uploaded tt sc tc s w :
  settled uploaded tt s ->
  run self uploaded tt sc tc s w
  = mkRun s w [] false
      (if truthy (translated_text s)
       then Some (save_as_docx (translated_text s)) else None).
Proof.
  intros (Hct & Hfile & Hkey). unfold script_run. rewrite load_upload_eq.
  assert (Hs : (if truthy (upload_text uploaded)
                then mkSession (translated_text s) (last_file_id s)
                       (last_translator s) (upload_text uploaded)
                else s) = s).
  { destruct (truthy (upload_text uploaded)); [|reflexivity].
    rewrite <- (Hct eq_refl). now destruct s. }
  rewrite Hs, Hfile, Hkey. reflexivity.
Qed.

(** A run leaves a settled session. *)
Lemma run_settles self uploaded tt sc tc s w :
  settled uploaded tt (session_after (run self uploaded tt sc tc s w)).
Proof.
  unfold script_run. rewrite load_upload_eq.
  set (s1 := if truthy (upload_text uploaded)
             then mkSession (translated_text s) (last_file_id s)
                    (last_translator s) (upload_text uploaded)
             else s).
  assert (Hct1 : truthy (upload_text uploaded) = true ->
                 current_text s1 = upload_text uploaded).
  { intros H. subst s1. now rewrite H. }
  destruct (truthy_id (upload_id uploaded)
            && differs (upload_id uploaded) (last_file_id s1))%bool eqn:Ef;
    cbn [last_translator current_text last_file_id translated_text];
    destruct (differs (Some tt) (last_translator s1) && truthy (current_text s1))%bool eqn:Ek;
    cbn [last_translator current_text last_file_id translated_text orb andb];
    repeat match goal with
           | |- context [if ?b then _ else _] => destruct b
           | |- context [match ?r with Ok _ => _ | Raise _ => _ end] => destruct r
           end;
    cbn [session_after];
    unfold settled;
    cbn [last_translator current_text last_file_id translated_text];
    rewrite ?differs_refl, ?andb_false_r, ?andb_false_l;
    repeat split; auto.
Qed.

(** X19.  A run of the script settles the session: a second run with the
    same upload, the same translator key and the same languages makes no
    backend call, does not ask for another rerun, and leaves the session and
    the world as the first run left them.  In particular the rerun requested
    after a successful translation does not translate again, and a failed
    translation is not retried until the file or the key changes. *)
Theorem second_run_does_nothing self uploaded tt sc tc s w :
  let r1 := script_run init_error backend_translate self uploaded tt sc tc s w in
  let r2 := script_run init_error backend_translate self uploaded tt sc tc
              (session_after r1) (run_world r1) in
  run_calls r2 = []
  /\ rerun r2 = false
  /\ session_after r2 = session_after r1
  /\ run_world r2 = run_world r1.
Proof.
  intros r1 r2. subst r2.
  rewrite (settled_run self uploaded tt sc tc (session_after r1) (run_world r1)).
  - repeat split.
  - subst r1. apply run_settles.
Qed.

(** X20.  Whatever translator key the script passes, every backend call
    of a run goes to a [GoogleTranslator] object: the script never reaches
    the other two backends. *)
Theorem script_only_calls_google self uploaded tt sc tc s w :
  Forall (fun c => backend_class (call_backend c) = GoogleTranslator)
    (run_calls
       (script_run init_error backend_translate self uploaded tt sc tc s w)).
Proof.
  unfold script_run. destruct (load_upload uploaded s) as [[text cid] s1].
  match goal with
  | |- context [if ?b then _ else mkRun _ _ _ _ _] => destruct b
  end; [|constructor].
  match goal with
  | |- context [returned ?out] =>
      pose proof (translate_text_calls_google init_error backend_translate
                    self _ tc sc tt w : Forall _ (backend_calls out)) as HF;
      destruct (returned out); exact HF
  end.
Qed.

End ScriptFacts.

(** ** Chunk sizes *)

(** X1.  With a positive [max_chunk_size], no sentence-level chunk and no
    hard-cut slice is longer than [max_chunk_size], no paragraph-level chunk
    is longer than [max_chunk_size + 2], and so no chunk returned by
    [smart_chunk_text] is longer than [max_chunk_size + 2]. *)
Theorem chunks_within_bounds self text :
  0 < max_chunk_size self ->
  (forall cs o c,
     smart_chunk_trace self text = Ok cs -> In (o, c) cs ->
     match o with
     | Paragraphs => len c <= max_chunk_size self + 2
     | Sentences _ | HardCut _ => len c <= max_chunk_size self
     end)
  /\ (forall cs,
        smart_chunk_text self text = Ok cs ->
        Forall (fun c => len c <= max_chunk_size self + 2) cs).
Proof.
  intros Hpos.
  assert (Hb : forall cs o c,
             smart_chunk_trace self text = Ok cs -> In (o, c) cs ->
             match o with
             | Paragraphs => len c <= max_chunk_size self + 2
             | Sentences _ | HardCut _ => len c <= max_chunk_size self
             end).
  { intros cs o c Hc Hin.
    pose proof (chunk_size_bounds self text cs Hpos Hc) as HF.
    rewrite Forall_forall in HF. exact (HF (o, c) Hin). }
  split; [exact Hb|].
  intros cs Hc. unfold smart_chunk_text in Hc.
  destruct (smart_chunk_trace self text) as [tr|e] eqn:Et; [|discriminate].
  cbn [bind] in Hc. injection Hc as <-.
  apply Forall_forall. intros c Hin.
  apply in_map_iff in Hin as ([o c'] & <- & Hin). cbn [snd].
  specialize (Hb tr o c' eq_refl Hin). destruct o; lia.
Qed.

(** ** The further theorems at concrete inputs *)

Lemma chunks_within_bounds_witness :
  0 < 3
  /\ Forall (fun c => len c <= 3 + 2)
       [lit "aa"; lit "bb" ++ PARA_SEP ++ lit "c"].
Proof.
  assert (Hpos : 0 < max_chunk_size (mkTranslator 3)) by reflexivity.
  split; [reflexivity|].
  apply (proj2 (chunks_within_bounds (mkTranslator 3)
                  (lit "aa" ++ PARA_SEP ++ lit "bb" ++ PARA_SEP ++ lit "c") Hpos)).
  reflexivity.
Defined.

Lemma smart_chunk_text_at_least_one_chunk_witness :
  0 < 1500 /\ exists c cs, smart_chunk_text (mkTranslator 1500) [] = Ok (c :: cs).
Proof.
  split; [reflexivity|].
  apply (smart_chunk_text_at_least_one_chunk (mkTranslator 1500) []).
  reflexivity.
Defined.

Lemma smart_chunk_text_raises_iff_witness :
  (max_chunk_size (mkTranslator 0) = 0
   /\ existsb truthy (split_nn (lit "a")) = true)
  /\ smart_chunk_text (mkTranslator 0) (lit "a") = Raise ValueError.
Proof.
  assert (H : max_chunk_size (mkTranslator 0) = 0
              /\ existsb truthy (split_nn (lit "a")) = true)
    by (split; reflexivity).
  split; [exact H|].
  apply (proj2 (proj2 (smart_chunk_text_raises_iff (mkTranslator 0) (lit "a")))).
  exact H.
Defined.

Lemma smart_chunk_text_negative_size_witness :
  -1 < 0 /\ smart_chunk_text (mkTranslator (-1)) (lit "Hello") = Ok [].
Proof.
  split; [reflexivity|].
  apply (smart_chunk_text_negative_size (mkTranslator (-1)) (lit "Hello")).
  reflexivity.
Defined.

Lemma translate_text_nonpositive_size_witness :
  forallb isspace (lit "Hello") = false
  /\ translate_text accept_all echo (mkTranslator 0)
       (lit "Hello") (lit "en") (lit "auto") (lit "google") 0%nat
     = mkOutcome (Raise ValueError) 0%nat []
  /\ translate_text accept_all echo (mkTranslator (-1))
       (lit "Hello") (lit "en") (lit "auto") (lit "google") 0%nat
     = mkOutcome (Ok []) 0%nat [].
Proof.
  split; [reflexivity|]. split.
  - apply (proj1 (translate_text_nonpositive_size accept_all echo (mkTranslator 0)
                    (lit "Hello") (lit "en") (lit "auto") (lit "google") 0%nat
                    eq_refl)).
    reflexivity.
  - apply (proj2 (translate_text_nonpositive_size accept_all echo (mkTranslator (-1))
                    (lit "Hello") (lit "en") (lit "auto") (lit "google") 0%nat
                    eq_refl)
             eq_refl (mkBackend GoogleTranslator (lit "auto") (lit "en"))).
    reflexivity.
Defined.

Lemma oversized_paragraph_keeps_characters_witness :
  0 < 4
  /\ len (lit "ab. ccccccccc.") > 4
  /\ exists st' new,
       para_step (mkTranslator 4) 0 (lit "ab. ccccccccc.") chunker_init = Ok st'
       /\ chunks st' = chunks (flush Paragraphs PARA_SEP chunker_init) ++ new
       /\ Forall (from_paragraph 0) new
       /\ Permutation (concat (map snd new)) (squeeze (lit "ab. ccccccccc."))
       /\ current_chunk st' = [].
Proof.
  split; [reflexivity|]. split; [reflexivity|].
  apply (oversized_paragraph_keeps_characters (mkTranslator 4) 0
           (lit "ab. ccccccccc.") chunker_init); reflexivity.
Defined.

Lemma hard_cut_overtakes_accumulated_sentence_witness :
  re_split (lit "ab. ccccccccc") = [lit "ab."; lit "ccccccccc"]
  /\ len (lit "ab.") <= 4
  /\ len (lit "ccccccccc") > 4
  /\ exists slices,
       para_step (mkTranslator 4) 0 (lit "ab. ccccccccc") chunker_init
       = Ok (mkChunker
               (chunks chunker_init ++ map (pair (HardCut 0)) slices
                ++ [(Sentences 0, lit "ab.")])
               [] 0)
       /\ hard_cut_shape 4 (lit "ccccccccc") slices.
Proof.
  split; [reflexivity|]. split; [vm_compute; discriminate|].
  split; [reflexivity|].
  apply (hard_cut_overtakes_accumulated_sentence (mkTranslator 4) 0
           (lit "ab. ccccccccc") (lit "ab.") (lit "ccccccccc") chunker_init);
    try reflexivity.
  vm_compute; discriminate.
Defined.

Lemma re_split_drops_only_whitespace_witness :
  existsb isspace (lit "a.b!c") = false
  /\ concat (re_split (lit "a.b!c")) = lit "a.b!c".
Proof.
  split; [reflexivity|].
  apply (proj2 (proj2 (re_split_drops_only_whitespace (lit "a.b!c")))).
  reflexivity.
Defined.

Lemma translate_text_calls_in_chunk_order_witness :
  forallb isspace (lit "aa bb cc") = false
  /\ len (lit "aa bb cc") > 3
  /\ smart_chunk_text (mkTranslator 3) (lit "aa bb cc")
     = Ok [lit "aa "; lit "bb "; lit "cc"]
  /\ calls_follow (mkBackend GoogleTranslator (lit "auto") (lit "en")) 0
       [lit "aa "; lit "bb "; lit "cc"]
       (backend_calls
          (translate_text accept_all flaky (mkTranslator 3)
             (lit "aa bb cc") (lit "en") (lit "auto") (lit "google") 0%nat)).
Proof.
  split; [reflexivity|]. split; [reflexivity|]. split; [reflexivity|].
  apply (translate_text_calls_in_chunk_order accept_all flaky (mkTranslator 3)
           (lit "aa bb cc") (lit "en") (lit "auto") (lit "google") 0%nat);
    reflexivity.
Defined.

Lemma translate_text_call_count_witness :
  forallb isspace (lit "aa bb cc") = false
  /\ len (lit "aa bb cc") > 3
  /\ (3 <= length
             (backend_calls
                (translate_text accept_all flaky (mkTranslator 3)
                   (lit "aa bb cc") (lit "en") (lit "auto") (lit "google") 0%nat))
       <= 3 * 3)%nat.
Proof.
  split; [reflexivity|]. split; [reflexivity|].
  apply (translate_text_call_count accept_all flaky (mkTranslator 3)
           (lit "aa bb cc") (lit "en") (lit "auto") (lit "google") 0%nat
           [lit "aa "; lit "bb "; lit "cc"]
           (mkBackend GoogleTranslator (lit "auto") (lit "en")));
    reflexivity.
Defined.

Lemma translate_text_with_reliable_backend_witness :
  let g := mkBackend GoogleTranslator (lit "auto") (lit "en") in
  let out := translate_text accept_all echo (mkTranslator 3)
               (lit "aa bb cc") (lit "en") (lit "auto") (lit "google") 0%nat in
  (forall c w0, exists w1, echo g c w0 = (Ok c, w1))
  /\ returned out = Ok (join PARA_SEP (map (fun c => c) [lit "aa "; lit "bb "; lit "cc"]))
  /\ backend_calls out
     = map (fun ic => mkCall (Some (fst ic)) g (snd ic))
         (combine (seq 0 (length [lit "aa "; lit "bb "; lit "cc"]))
            [lit "aa "; lit "bb "; lit "cc"]).
Proof.
  intros g out.
  assert (He : forall c w0, exists w1, echo g c w0 = (Ok c, w1))
    by (intros c w0; unfold echo; eauto).
  split; [exact He|].
  apply (translate_text_with_reliable_backend accept_all echo (mkTranslator 3)
           (lit "aa bb cc") (lit "en") (lit "auto") (lit "google") 0%nat
           [lit "aa "; lit "bb "; lit "cc"] g (fun c => c));
    try reflexivity.
  exact He.
Defined.

Lemma translate_text_with_identity_backend_witness :
  let text := lit "aa" ++ PARA_SEP ++ lit "bb" ++ PARA_SEP ++ lit "c" in
  forallb isspace text = false
  /\ Forall (fun q => len q <= 3) (split_nn text)
  /\ returned (translate_text accept_all echo (mkTranslator 3)
                 text (lit "en") (lit "auto") (lit "google") 0%nat)
     = Ok text.
Proof.
  intros text.
  assert (HF : Forall (fun q => len q <= max_chunk_size (mkTranslator 3))
                 (split_nn text)).
  { repeat constructor; vm_compute; discriminate. }
  split; [reflexivity|]. split; [exact HF|].
  apply (translate_text_with_identity_backend accept_all echo (mkTranslator 3)
           text (lit "en") (lit "auto") (lit "google") 0%nat
           (mkBackend GoogleTranslator (lit "auto") (lit "en")));
    try reflexivity; [exact HF|].
  intros c w0. unfold echo. eauto.
Defined.

Lemma translate_text_attempts_witness :
  let g := mkBackend GoogleTranslator (lit "auto") (lit "en") in
  let out := translate_text accept_all always_fails (mkTranslator 3)
               (lit "aa bb cc") (lit "en") (lit "auto") (lit "google") 0%nat in
  always_fails g (lit "bb ") 3%nat = (Raise (BackendError 0), 4%nat)
  /\ always_fails g (lit "bb ") 4%nat = (Raise (BackendError 0), 5%nat)
  /\ always_fails g (lit "bb ") 5%nat = (Raise (BackendError 0), 6%nat)
  /\ calls_for 1 (backend_calls out)
     = [mkCall (Some 1%nat) g (lit "bb "); mkCall (Some 1%nat) g (lit "bb ");
        mkCall (Some 1%nat) g (lit "bb ")]
  /\ nth_error
       (translated_chunks
          (chunk_loop always_fails g 0 ([lit "aa "] ++ lit "bb " :: [lit "cc"])
             (mkPipeline [] 0%nat [])))
       1
     = Some SENTINEL.
Proof.
  intros g out.
  split; [reflexivity|]. split; [reflexivity|]. split; [reflexivity|].
  apply (proj2 (proj2 (translate_text_attempts accept_all always_fails
                         (mkTranslator 3) (lit "aa bb cc") (lit "en") (lit "auto")
                         (lit "google") 0%nat g [lit "aa "] (lit "bb ") [lit "cc"]
                         eq_refl eq_refl eq_refl eq_refl))
           (BackendError 0) (BackendError 0) (BackendError 0) 4%nat 5%nat 6%nat);
    reflexivity.
Defined.

Lemma extract_text_empty_iff_blank_witness :
  extract_text_from_docx [lit "Hello"; lit "  "; lit "World"] <> []
  /\ forallb isspace (extract_text_from_docx [lit "Hello"; lit "  "; lit "World"])
     = false.
Proof.
  assert (H : extract_text_from_docx [lit "Hello"; lit "  "; lit "World"] <> [])
    by discriminate.
  split; [exact H|].
  apply (proj2 (extract_text_empty_iff_blank [lit "Hello"; lit "  "; lit "World"])).
  exact H.
Defined.



(** ** Empty chunks, and a document through the whole pipeline *)

(** X21.  A paragraph that is one sentence longer than [max_chunk_size]
    and ends with its terminator gives, after the hard-cut slices, one more
    chunk that is empty: the empty piece [re.split] returns after the last
    terminator is flushed as a chunk of its own. *)
Theorem trailing_terminator_gives_empty_chunk self p q s st :
  0 < max_chunk_size self ->
  len q > max_chunk_size self ->
  re_split q = [s; []] ->
  len s > max_chunk_size self ->
  current_chunk st = [] ->
  current_size st = 0 ->
  exists slices,
    para_step self p q st
    = Ok (mkChunker
            (chunks st ++ map (pair (HardCut p)) slices ++ [(Sentences p, [])])
            [] 0)
    /\ hard_cut_shape (max_chunk_size self) s slices.
Proof.
  intros Hpos Hq Hsplit Hs Hcur Hsz. unfold para_step.
  destruct (Z.gtb_spec (len q) (max_chunk_size self)); [|lia].
  assert (Hf : flush Paragraphs PARA_SEP st = st)
    by (unfold flush; now rewrite Hcur).
  rewrite Hf, Hsplit. cbn [sentence_loop].
  destruct (sentence_step_hard_cut self p s st Hpos Hs) as (slices & Hstep & Hshape).
  rewrite Hstep. cbn [bind]. unfold sentence_step.
  cbn [current_chunk current_size chunks]. rewrite Hsz, Hcur.
  change (len []) with 0. cbn [Z.add].
  destruct (Z.gtb_spec 0 (max_chunk_size self)); [lia|].
  cbn [bind app]. exists slices. split; [|exact Hshape].
  unfold flush. cbn [current_chunk truthy chunks join].
  now rewrite <- app_assoc.
Qed.

Lemma trailing_terminator_gives_empty_chunk_witness :
  re_split (lit "ccccccccc.") = [lit "ccccccccc."; []]
  /\ len (lit "ccccccccc.") > 4
  /\ exists slices,
       para_step (mkTranslator 4) 0 (lit "ccccccccc.") chunker_init
       = Ok (mkChunker
               (chunks chunker_init ++ map (pair (HardCut 0)) slices
                ++ [(Sentences 0, [])])
               [] 0)
       /\ hard_cut_shape 4 (lit "ccccccccc.") slices.
Proof.
  split; [reflexivity|]. split; [reflexivity|].
  apply (trailing_terminator_gives_empty_chunk (mkTranslator 4) 0
           (lit "ccccccccc.") (lit "ccccccccc.") chunker_init);
    reflexivity.
Defined.



(** ** The document methods and the script on small inputs *)

Example extract_ex1 :
  extract_text_from_docx [lit "Hello"; lit "  "; []; lit "World"]
  = lit "Hello" ++ PARA_SEP ++ lit "World".
Proof. reflexivity. Qed.

Example save_ex1 :
  save_as_docx (lit "Hello" ++ PARA_SEP ++ lit " " ++ PARA_SEP ++ lit "World")
  = [lit "Hello"; lit "World"].
Proof. reflexivity. Qed.

Example save_ex2 :
  save_as_docx (extract_text_from_docx [lit "a" ++ [LF]; lit "b"])
  = [lit "a"; LF :: lit "b"].
Proof. reflexivity. Qed.

Example script_ex1 :
  let up := Some (mkUpload (lit "a.docx_12") (Ok [lit "Hello"; lit "World"])) in
  let s0 := mkSession [] None None [] in
  let r1 := script_run accept_all echo (mkTranslator 1500) up
              (lit "google") (lit "zh-CN") (lit "es") s0 0%nat in
  session_after r1
  = mkSession (lit "Hello" ++ PARA_SEP ++ lit "World") (Some (lit "a.docx_12"))
      (Some (lit "google")) (lit "Hello" ++ PARA_SEP ++ lit "World")
  /\ rerun r1 = true
  /\ length (run_calls r1) = 1%nat
  /\ script_run accept_all echo (mkTranslator 1500) up
       (lit "google") (lit "zh-CN") (lit "es") (session_after r1) (run_world r1)
     = mkRun (session_after r1) (run_world r1) [] false
         (Some [lit "Hello"; lit "World"]).
Proof. repeat split. Qed.
